(** * hr-learning: the vocabulary trainer's quiz store, helpers and storage

    A shallow embedding of [src/store/helpers.ts], [src/utils/storage.ts]
    and [src/store/quizStore.ts], with the event bindings of the component
    that drives the store, followed by the properties of the quiz
    progression state machine, of the choice generator, of the filter and
    of the persisted statistics.

    Conventions of the embedding:
    - a JavaScript [number] that holds an aggregate counter or an index is
      a [Z]; the counters of a per-word entry are [JS.number]s, integers or
      [NaN], since [updateWordStats] can store [NaN];
    - a JavaScript string is a [string] whose characters are the code units
      U+0000 to U+00FF (enough for the German and English vocabulary);
    - [T | null], [T | undefined] and optional parameters are [option T];
    - an object used as a dictionary is a [gmap string _] of its own
      properties, and a property read on it also finds the members of
      [Object.prototype]; where the order of its properties or the identity
      of the object matters (JSON text, mutation) the object is a list of
      properties or a cell of a heap;
    - [new Date().toISOString()] is an argument [now] of the function that
      reads the clock;
    - each use of [Math.random] is an argument holding the draws;
    - a function that can throw returns an [option]. *)

From Stdlib Require Import ZArith String Ascii List Permutation Lia.
From Stdlib Require Import DecimalString DecimalZ DecimalPos.
From stdpp Require Import base option list gmap strings fin_maps.

Local Open Scope string_scope.
Local Open Scope Z_scope.
Local Open Scope list_scope.

(** ** JavaScript strings *)

Module JS.

Definition code (c : ascii) : N := N_of_ascii c.

(** White space and line terminators of ECMAScript below U+0100:
    TAB, LF, VT, FF, CR, SP and NBSP. *)
Definition isWhiteSpace (c : ascii) : bool :=
  let n := code c in
  ((9 <=? n) && (n <=? 13) || (n =? 32) || (n =? 160))%N.

Fixpoint trimStart (s : string) : string :=
  match s with
  | EmptyString => EmptyString
  | String c r => if isWhiteSpace c then trimStart r else s
  end.

Fixpoint trimEnd (s : string) : string :=
  match s with
  | EmptyString => EmptyString
  | String c r =>
      match trimEnd r with
      | EmptyString => if isWhiteSpace c then EmptyString else String c EmptyString
      | r' => String c r'
      end
  end.

(** [String.prototype.trim] *)
Definition trim (s : string) : string := trimEnd (trimStart s).

(** Upper-case letters below U+0100: A-Z and the Latin-1 letters
    U+00C0-U+00DE without the multiplication sign U+00D7. *)
Definition isUpper (c : ascii) : bool :=
  let n := code c in
  ((65 <=? n) && (n <=? 90) || (192 <=? n) && (n <=? 222) && negb (n =? 215))%N.

Definition lowerUnit (c : ascii) : ascii :=
  if isUpper c then ascii_of_N (code c + 32) else c.

(** [String.prototype.toLowerCase] *)
Fixpoint toLowerCase (s : string) : string :=
  match s with
  | EmptyString => EmptyString
  | String c r => String (lowerUnit c) (toLowerCase r)
  end.

(** [!s] for a string: only the empty string is falsy. *)
Definition falsy (s : string) : bool :=
  match s with EmptyString => true | _ => false end.

(** The numbers the counters take: the integers and [NaN], which the
    arithmetic on a missing property produces. *)
Inductive number :=
| Num (n : Z)
| NaN.

#[global] Instance number_eq_dec : EqDecision number.
Proof. solve_decision. Defined.

(** [x + y] *)
Definition add (x y : number) : number :=
  match x, y with
  | Num a, Num b => Num (a + b)
  | _, _ => NaN
  end.

(** [x > y]: false as soon as one side is [NaN]. *)
Definition gtb (x y : number) : bool :=
  match x, y with
  | Num a, Num b => (a >? b)%Z
  | _, _ => false
  end.

Definition gt (x y : number) : Prop := gtb x y = true.

(** The value of a property read used as a number: a missing property
    reads as [undefined], which arithmetic turns into [NaN]. *)
Definition toNumber (x : option number) : number :=
  match x with
  | Some n => n
  | None => NaN
  end.

(** The names of the members of [Object.prototype]. A property read
    [o[key]] on an object literal without an own property [key] finds the
    member of that name: a function, or for [__proto__] the prototype
    object itself. *)
Definition objectPrototypeNames : list string :=
  [ "constructor"; "__defineGetter__"; "__defineSetter__"; "hasOwnProperty";
    "__lookupGetter__"; "__lookupSetter__"; "isPrototypeOf";
    "propertyIsEnumerable"; "toString"; "valueOf"; "__proto__";
    "toLocaleString" ].

Definition inheritedName (key : string) : bool :=
  bool_decide (key ∈ objectPrototypeNames).

End JS.

Coercion JS.Num : Z >-> JS.number.

(** ** Randomness

    [arr.sort(() => Math.random() - 0.5)] leaves the elements of [arr] in an
    order that depends on the draws and on the engine's sorting algorithm.
    The draws are given as the list of positions at which each element ends
    up being inserted: [randomSort rs] ranges over exactly the arrangements
    of its argument (see [randomSort_Permutation], [randomSort_complete]). *)

Definition Draws := list nat.

Fixpoint insertAt {A} (n : nat) (x : A) (l : list A) : list A :=
  match n, l with
  | O, _ => x :: l
  | S n', y :: l' => y :: insertAt n' x l'
  | S _, [] => [x]
  end.

Fixpoint randomSort {A} (rs : Draws) (l : list A) : list A :=
  match l with
  | [] => []
  | x :: l' =>
      match rs with
      | [] => x :: randomSort [] l'
      | r :: rs' => insertAt r x (randomSort rs' l')
      end
  end.

(** ** src/data/vocab.ts (type only) and src/store/helpers.ts *)

Module VocabItem.
Record t := mk {
  id : string;
  de : string;
  en : string;
  difficulty : string;
  tags : list string;
}.

#[global] Instance eq_dec : EqDecision t.
Proof. solve_decision. Defined.
End VocabItem.

Inductive Mode := de_to_en | en_to_de.

#[global] Instance Mode_eq_dec : EqDecision Mode.
Proof. solve_decision. Defined.

Module Choice.
Record t := mk {
  text : string;
  isCorrect : bool;
}.

#[global] Instance eq_dec : EqDecision t.
Proof. solve_decision. Defined.
End Choice.

(** The callback of [items.filter(...)] in [filterVocab], one [if] of the
    source per line. An array is truthy even when empty, a string unless it
    is empty. *)
Definition filterVocab (items : list VocabItem.t) (difficulty : option string)
    (failedWordIds : option (list string)) : list VocabItem.t :=
  List.filter
    (fun it =>
       let failed :=
         if bool_decide (difficulty = Some "failed") then failedWordIds else None in
       match failed, difficulty with
       | Some ids, _ => bool_decide (VocabItem.id it ∈ ids)
       | None, None => true
       | None, Some d =>
           if JS.falsy d || bool_decide (d = "all") then true
           else if negb (bool_decide (VocabItem.difficulty it = d)) then false
           else true
       end)
    items.

(** [[copy[i], copy[j]] = [copy[j], copy[i]]] *)
Definition swap {A} (copy : list A) (i j : nat) : list A :=
  match copy !! i, copy !! j with
  | Some x, Some y => <[i:=y]> (<[j:=x]> copy)
  | _, _ => copy
  end.

(** The loop of [shuffleArray] from index [i] down to 1; the head of [rs]
    is [Math.floor(Math.random() * (i + 1))], a number below [i + 1]. *)
Fixpoint shuffleLoop {A} (i : nat) (rs : Draws) (copy : list A) : list A :=
  match i with
  | O => copy
  | S i' =>
      let j := (hd 0%nat rs `mod` S i)%nat in
      shuffleLoop i' (tl rs) (swap copy i j)
  end.

Definition shuffleArray {A} (rs : Draws) (items : list A) : list A :=
  shuffleLoop (length items - 1) rs items.

(** The term the learner has to give: [mode === "de-to-en" ? v.en : v.de]. *)
Definition target (mode : Mode) (v : VocabItem.t) : string :=
  match mode with
  | de_to_en => VocabItem.en v
  | en_to_de => VocabItem.de v
  end.

(** [(v) => v.id !== current.id] *)
Definition isOther (current : VocabItem.t) (v : VocabItem.t) : bool :=
  negb (bool_decide (VocabItem.id v = VocabItem.id current)).

(** [rs] holds the draws of the two random sorts. *)
Definition getChoices (rs : Draws * Draws) (vocab : list VocabItem.t)
    (current : VocabItem.t) (mode : Mode) : list Choice.t :=
  let others := List.filter (isOther current) vocab in
  let shuffled := randomSort (fst rs) others in
  let distractors := take 3 shuffled in
  let correct := target mode current in
  let options :=
    Choice.mk correct true
      :: List.map (fun v => Choice.mk (target mode v) false) distractors in
  randomSort (snd rs) options.

(** ** src/utils/storage.ts: the statistics record *)

Module WordStats.
Record t := mk {
  attempts : JS.number;
  correct : JS.number;
  lastAttempted : string;
}.

#[global] Instance eq_dec : EqDecision t.
Proof. solve_decision. Defined.
End WordStats.

Module Stats.
Record t := mk {
  correct : Z;
  attempts : Z;
  lastSessionDate : string;
  wordStats : option (gmap string WordStats.t);
}.
End Stats.

(** [x || {}] for the optional per-word map. *)
Definition orEmpty (wordStats : option (gmap string WordStats.t)) : gmap string WordStats.t :=
  default ∅ wordStats.

(** What [wordStats[wordId]] finds when it is truthy: the entry that the
    dictionary holds under that key, or, when it holds none and the key is
    the name of a member of [Object.prototype], that member. *)
Inductive Member :=
| OwnEntry (ws : WordStats.t)
| InheritedMember.

(** [wordStats[wordId]]; [None] is [undefined]. *)
Definition getMember (wordStats : gmap string WordStats.t) (wordId : string)
    : option Member :=
  match wordStats !! wordId with
  | Some ws => Some (OwnEntry ws)
  | None => if JS.inheritedName wordId then Some InheritedMember else None
  end.

(** [m.attempts] and [m.correct]: a member of [Object.prototype] has
    neither property. *)
Definition memberAttempts (m : Member) : option JS.number :=
  match m with
  | OwnEntry ws => Some (WordStats.attempts ws)
  | InheritedMember => None
  end.

Definition memberCorrect (m : Member) : option JS.number :=
  match m with
  | OwnEntry ws => Some (WordStats.correct ws)
  | InheritedMember => None
  end.

Definition updateWordStats (now : string) (stats : Stats.t) (wordId : string)
    (isCorrect : bool) : Stats.t :=
  let wordStats := orEmpty (Stats.wordStats stats) in
  let currentWordStats :=
    default (OwnEntry (WordStats.mk 0 0 now)) (getMember wordStats wordId) in
  Stats.mk
    (Stats.correct stats)
    (Stats.attempts stats)
    (Stats.lastSessionDate stats)
    (Some (<[wordId :=
              WordStats.mk
                (JS.add (JS.toNumber (memberAttempts currentWordStats)) 1)
                (JS.add (JS.toNumber (memberCorrect currentWordStats))
                   (if isCorrect then 1 else 0))
                now]> wordStats)).

(** [Object.keys(wordStats)]: the keys of the dictionary, each once. The
    callers use the result for membership tests and for its length only,
    so the order of enumeration is left to the map. *)
Definition keys (wordStats : gmap string WordStats.t) : list string :=
  (map_to_list wordStats).*1.

Definition getFailedWordIds (stats : Stats.t) : list string :=
  let wordStats := orEmpty (Stats.wordStats stats) in
  List.filter
    (fun wordId =>
       match wordStats !! wordId with
       | Some ws => JS.gtb (WordStats.attempts ws) (WordStats.correct ws)
       | None => false
       end)
    (keys wordStats).

Definition getTotalUniqueWordsAttempted (stats : Stats.t) : Z :=
  Z.of_nat (length (keys (orEmpty (Stats.wordStats stats)))).

(** The record that [clearStats] and the store's initial state build. *)
Definition zeroStats (now : string) : Stats.t := Stats.mk 0 0 now (Some ∅).

(** ** JSON texts

    [loadStats] and [saveStats] exchange the record with [localStorage] as
    JSON text. What [JSON.parse] returns is untyped, so this side of the
    storage module works on JSON values: an object is the list of its
    properties in enumeration order. [stringify] is [JSON.stringify];
    [parse] is [JSON.parse] on the texts that [JSON.stringify] writes for
    these values (no insignificant white space, integer numbers, characters
    below U+0100, the members of an object in their enumeration order):
    [parse_stringify]. It covers no other text: it returns [None] for JSON
    with white space between the tokens, with fractions or with exponents,
    where the library returns a value, and it keeps repeated keys and the
    written order of the keys, where the library keeps the last of repeated
    keys and moves integer keys to the front. The properties of [loadStats]
    below are therefore stated for texts written by [stringify], and where
    a property of an object is looked up, for objects with distinct
    keys. *)

Module JSON.

#[warnings="-register-all"]
Inductive value :=
| JNull
| JBool (b : bool)
| JNumber (n : Z)
| JString (s : string)
| JArray (items : list value)
| JObject (fields : list (string * value)).

Definition dquote : ascii := "034"%char.
Definition backslash : ascii := "092"%char.

Definition hexDigit (n : N) : ascii :=
  if (n <? 10)%N then ascii_of_N (48 + n) else ascii_of_N (87 + n).

(** One code unit inside a string literal, written in front of [rest]. *)
Definition escapeUnit (c : ascii) (rest : string) : string :=
  let n := JS.code c in
  if (n =? 34)%N then String backslash (String dquote rest)
  else if (n =? 92)%N then String backslash (String backslash rest)
  else if (n =? 8)%N then String backslash (String "b" rest)
  else if (n =? 12)%N then String backslash (String "f" rest)
  else if (n =? 10)%N then String backslash (String "n" rest)
  else if (n =? 13)%N then String backslash (String "r" rest)
  else if (n =? 9)%N then String backslash (String "t" rest)
  else if (n <? 32)%N then
    String backslash
      (String "u" (String "0" (String "0"
         (String (hexDigit (n / 16)) (String (hexDigit (n mod 16)) rest)))))
  else String c rest.

Fixpoint escapeInto (s rest : string) : string :=
  match s with
  | EmptyString => rest
  | String c r => escapeUnit c (escapeInto r rest)
  end.

Definition emitString (s rest : string) : string :=
  String dquote (escapeInto s (String dquote rest)).

Definition printNumber (n : Z) : string := NilZero.string_of_int (Z.to_int n).

(** [emit v rest] is the text of [v] followed by [rest]. *)
Fixpoint emit (v : value) (rest : string) : string :=
  match v with
  | JNull => String.append "null" rest
  | JBool true => String.append "true" rest
  | JBool false => String.append "false" rest
  | JNumber n => String.append (printNumber n) rest
  | JString s => emitString s rest
  | JArray [] => String.append "[]" rest
  | JArray items =>
      String "["
        ((fix emitElements (l : list value) : string :=
            match l with
            | [] => String "]" rest
            | [x] => emit x (String "]" rest)
            | x :: l' => emit x (String "," (emitElements l'))
            end) items)
  | JObject [] => String.append "{}" rest
  | JObject fields =>
      String "{"
        ((fix emitMembers (l : list (string * value)) : string :=
            match l with
            | [] => String "}" rest
            | [(k, x)] => emitString k (String ":" (emit x (String "}" rest)))
            | (k, x) :: l' =>
                emitString k (String ":" (emit x (String "," (emitMembers l'))))
            end) fields)
  end.

(** The elements of a non-empty array and the members of a non-empty
    object as [emit] writes them, up to the closing bracket. *)
Definition emitElements (rest : string) : list value -> string :=
  fix emitElements (l : list value) : string :=
    match l with
    | [] => String "]" rest
    | [x] => emit x (String "]" rest)
    | x :: l' => emit x (String "," (emitElements l'))
    end.

Definition emitMembers (rest : string) : list (string * value) -> string :=
  fix emitMembers (l : list (string * value)) : string :=
    match l with
    | [] => String "}" rest
    | [(k, x)] => emitString k (String ":" (emit x (String "}" rest)))
    | (k, x) :: l' =>
        emitString k (String ":" (emit x (String "," (emitMembers l'))))
    end.

(** The number of values and list cells of a value: the recursion depth
    that reading it back takes at most. *)
Fixpoint size (v : value) : nat :=
  match v with
  | JArray items => S (list_sum (List.map (fun x => S (size x)) items))
  | JObject fields => S (list_sum (List.map (fun '(_, x) => S (size x)) fields))
  | _ => 1
  end.

Definition sizeElements (l : list value) : nat :=
  list_sum (List.map (fun x => S (size x)) l).

Definition sizeMembers (l : list (string * value)) : nat :=
  list_sum (List.map (fun '(_, x) => S (size x)) l).

(** [JSON.stringify(v)] *)
Definition stringify (v : value) : string := emit v "".

Definition simpleEscape (e : ascii) : option ascii :=
  if Ascii.eqb e dquote then Some dquote
  else if Ascii.eqb e backslash then Some backslash
  else if Ascii.eqb e "/" then Some "/"%char
  else if Ascii.eqb e "b" then Some "008"%char
  else if Ascii.eqb e "f" then Some "012"%char
  else if Ascii.eqb e "n" then Some "010"%char
  else if Ascii.eqb e "r" then Some "013"%char
  else if Ascii.eqb e "t" then Some "009"%char
  else None.

Definition hexValue (c : ascii) : option N :=
  let n := JS.code c in
  if (48 <=? n)%N && (n <=? 57)%N then Some (n - 48)%N
  else if (97 <=? n)%N && (n <=? 102)%N then Some (n - 87)%N
  else if (65 <=? n)%N && (n <=? 70)%N then Some (n - 55)%N
  else None.

(** The code unit written as [\uXXXX], when it is below U+0100. *)
Definition unicodeEscape (h1 h2 h3 h4 : ascii) : option ascii :=
  match hexValue h1, hexValue h2, hexValue h3, hexValue h4 with
  | Some a, Some b, Some c, Some d =>
      let n := (((a * 16 + b) * 16 + c) * 16 + d)%N in
      if (n <? 256)%N then Some (ascii_of_N n) else None
  | _, _, _, _ => None
  end.

(** The rest of a string literal, after its opening quote. *)
Fixpoint parseStringBody (s : string) : option (string * string) :=
  match s with
  | EmptyString => None
  | String c r =>
      if Ascii.eqb c dquote then Some (EmptyString, r)
      else if Ascii.eqb c backslash then
        match r with
        | String e r1 =>
            match simpleEscape e with
            | Some c' =>
                match parseStringBody r1 with
                | Some (t, r') => Some (String c' t, r')
                | None => None
                end
            | None =>
                if Ascii.eqb e "u" then
                  match r1 with
                  | String h1 (String h2 (String h3 (String h4 r2))) =>
                      match unicodeEscape h1 h2 h3 h4, parseStringBody r2 with
                      | Some c', Some (t, r') => Some (String c' t, r')
                      | _, _ => None
                      end
                  | _ => None
                  end
                else None
            end
        | EmptyString => None
        end
      else if (JS.code c <? 32)%N then None
      else
        match parseStringBody r with
        | Some (t, r') => Some (String c t, r')
        | None => None
        end
  end.

Definition isNumberUnit (c : ascii) : bool :=
  let n := JS.code c in
  ((n =? 45) || (48 <=? n) && (n <=? 57))%N.

Fixpoint spanNumber (s : string) : string * string :=
  match s with
  | EmptyString => (EmptyString, EmptyString)
  | String c r =>
      if isNumberUnit c then
        let '(t, r') := spanNumber r in (String c t, r')
      else (EmptyString, s)
  end.

(** Does the text start with a unit of a number literal? *)
Definition startsNumber (s : string) : bool :=
  match s with
  | EmptyString => false
  | String c _ => isNumberUnit c
  end.

Fixpoint allNumberUnits (s : string) : bool :=
  match s with
  | EmptyString => true
  | String c r => isNumberUnit c && allNumberUnits r
  end.

(** An integer literal; only the text that [printNumber] writes for the
    integer is accepted (no leading zeros, no lone sign). *)
Definition parseNumber (s : string) : option (Z * string) :=
  let '(tok, rest) := spanNumber s in
  match NilZero.int_of_string tok with
  | Some d =>
      let n := Z.of_int d in
      if String.eqb (printNumber n) tok then Some (n, rest) else None
  | None => None
  end.

Fixpoint dropPrefix (lit s : string) : option string :=
  match lit, s with
  | EmptyString, _ => Some s
  | String a lit', String b s' => if Ascii.eqb a b then dropPrefix lit' s' else None
  | String _ _, EmptyString => None
  end.

Definition parseLiteral (lit : string) (v : value) (s : string) : option (value * string) :=
  match dropPrefix lit s with
  | Some r => Some (v, r)
  | None => None
  end.

Fixpoint parseValue (fuel : nat) (s : string) : option (value * string) :=
  match fuel with
  | O => None
  | S fuel =>
      match s with
      | EmptyString => None
      | String c r =>
          if Ascii.eqb c "n" then parseLiteral "ull" JNull r
          else if Ascii.eqb c "t" then parseLiteral "rue" (JBool true) r
          else if Ascii.eqb c "f" then parseLiteral "alse" (JBool false) r
          else if Ascii.eqb c dquote then
            match parseStringBody r with
            | Some (t, r') => Some (JString t, r')
            | None => None
            end
          else if Ascii.eqb c "[" then
            match r with
            | String c2 r2 =>
                if Ascii.eqb c2 "]" then Some (JArray [], r2)
                else
                  match parseElements fuel r with
                  | Some (items, r') => Some (JArray items, r')
                  | None => None
                  end
            | EmptyString => None
            end
          else if Ascii.eqb c "{" then
            match r with
            | String c2 r2 =>
                if Ascii.eqb c2 "}" then Some (JObject [], r2)
                else
                  match parseMembers fuel r with
                  | Some (fields, r') => Some (JObject fields, r')
                  | None => None
                  end
            | EmptyString => None
            end
          else
            match parseNumber s with
            | Some (n, r') => Some (JNumber n, r')
            | None => None
            end
      end
  end
with parseElements (fuel : nat) (s : string) : option (list value * string) :=
  match fuel with
  | O => None
  | S fuel =>
      match parseValue fuel s with
      | Some (v, String c r) =>
          if Ascii.eqb c "," then
            match parseElements fuel r with
            | Some (items, r') => Some (v :: items, r')
            | None => None
            end
          else if Ascii.eqb c "]" then Some ([v], r)
          else None
      | _ => None
      end
  end
with parseMembers (fuel : nat) (s : string) : option (list (string * value) * string) :=
  match fuel with
  | O => None
  | S fuel =>
      match s with
      | String q r =>
          if Ascii.eqb q dquote then
            match parseStringBody r with
            | Some (k, String colon r1) =>
                if Ascii.eqb colon ":" then
                  match parseValue fuel r1 with
                  | Some (v, String c r2) =>
                      if Ascii.eqb c "," then
                        match parseMembers fuel r2 with
                        | Some (fields, r') => Some ((k, v) :: fields, r')
                        | None => None
                        end
                      else if Ascii.eqb c "}" then Some ([(k, v)], r2)
                      else None
                  | _ => None
                  end
                else None
            | _ => None
            end
          else None
      | EmptyString => None
      end
  end.

(** [JSON.parse(s)] for a text [s] written by [stringify]; [None] stands
    for a thrown [SyntaxError] and for every text outside that fragment. *)
Definition parse (s : string) : option value :=
  match parseValue (S (String.length s)) s with
  | Some (v, EmptyString) => Some v
  | _ => None
  end.

(** Truthiness of a parsed value, as [||] tests it. *)
Definition truthy (v : value) : bool :=
  match v with
  | JNull => false
  | JBool b => b
  | JNumber n => negb (n =? 0)%Z
  | JString s => negb (JS.falsy s)
  | JArray _ | JObject _ => true
  end.

Fixpoint lookup (key : string) (fields : list (string * value)) : option value :=
  match fields with
  | [] => None
  | (k, v) :: fields' => if String.eqb k key then Some v else lookup key fields'
  end.

(** Defining the property [key]: an existing property keeps its place and
    takes the new value, a new one comes last. *)
Fixpoint define (key : string) (v : value) (fields : list (string * value))
    : list (string * value) :=
  match fields with
  | [] => [(key, v)]
  | (k, x) :: fields' =>
      if String.eqb k key then (k, v) :: fields' else (k, x) :: define key v fields'
  end.

(** The own enumerable properties that a spread [{...v}] copies. *)
Definition ownProperties (v : value) : list (string * value) :=
  match v with
  | JObject fields => fields
  | JArray items => imap (fun i x => (printNumber (Z.of_nat i), x)) items
  | JString s =>
      imap (fun i c => (printNumber (Z.of_nat i), JString (String c EmptyString)))
        (list_ascii_of_string s)
  | _ => []
  end.

(** [v.wordStats]; [None] is the [TypeError] of reading a property of
    [null]. A property name that is not an index is [undefined] on arrays,
    strings, numbers and booleans. *)
Definition getProperty (v : value) (key : string) : option (option value) :=
  match v with
  | JNull => None
  | JObject fields => Some (lookup key fields)
  | _ => Some None
  end.

End JSON.

(** ** storage.ts: loadStats, saveStats, clearStats *)

(** The browser's [localStorage]: its items, and whether the storage can be
    used at all (when it cannot, every access throws). *)
Record LocalStorage := mkLocalStorage {
  items : gmap string string;
  available : bool;
}.

Definition getItem (storage : LocalStorage) (key : string) : option (option string) :=
  if available storage then Some (items storage !! key) else None.

Definition setItem (storage : LocalStorage) (key value : string) : option LocalStorage :=
  if available storage
  then Some (mkLocalStorage (<[key := value]> (items storage)) true)
  else None.

Definition removeItem (storage : LocalStorage) (key : string) : option LocalStorage :=
  if available storage
  then Some (mkLocalStorage (delete key (items storage)) true)
  else None.

Definition STATS_KEY : string := "hr-vocab-stats".

(** The record literal that [loadStats] and [clearStats] return. *)
Definition defaultStats (now : string) : JSON.value :=
  JSON.JObject
    [ ("correct", JSON.JNumber 0);
      ("attempts", JSON.JNumber 0);
      ("lastSessionDate", JSON.JString now);
      ("wordStats", JSON.JObject []) ].

(** [{ ...parsed, wordStats: parsed.wordStats || {} }] *)
Definition withWordStats (parsed : JSON.value) : option JSON.value :=
  match JSON.getProperty parsed "wordStats" with
  | None => None
  | Some wordStats =>
      let wordStats :=
        match wordStats with
        | Some w => if JSON.truthy w then w else JSON.JObject []
        | None => JSON.JObject []
        end in
      Some (JSON.JObject (JSON.define "wordStats" wordStats (JSON.ownProperties parsed)))
  end.

(** The [try] block of [loadStats]: [None] when it throws or when nothing
    is stored; both end at the [return] of the default record. *)
Definition loadStats (now : string) (storage : LocalStorage) : JSON.value :=
  let tried :=
    match getItem storage STATS_KEY with
    | Some (Some stored) =>
        if JS.falsy stored then None
        else
          match JSON.parse stored with
          | Some parsed => withWordStats parsed
          | None => None
          end
    | _ => None
    end in
  default (defaultStats now) tried.

Definition saveStats (stats : JSON.value) (storage : LocalStorage) : LocalStorage :=
  default storage (setItem storage STATS_KEY (JSON.stringify stats)).

Definition clearStats (now : string) (storage : LocalStorage) : JSON.value * LocalStorage :=
  (defaultStats now, default storage (removeItem storage STATS_KEY)).

(** ** storage.ts on the heap: what updateWordStats allocates

    JavaScript objects are held by reference. The heap below holds the three
    kinds of objects that make up a statistics record: the record itself,
    its per-word dictionary and one entry per word. An object literal
    allocates a new object; a spread [{...o}] copies the properties of [o],
    that is the references they hold, into the new object. *)

Module Heap.

Definition loc := positive.

Inductive cell :=
| StatsCell (correct attempts : Z) (lastSessionDate : string) (wordStats : option loc)
| DictCell (entries : gmap string loc)
| WordStatsCell (ws : WordStats.t).

Abbreviation heap := (gmap loc cell).

(** An object literal: the new object sits at a location the heap does not
    use yet. *)
Definition alloc (h : heap) (c : cell) : heap * loc :=
  let l := fresh (dom h) in (<[l := c]> h, l).

(** What [wordStats[wordId]] refers to: an object of the heap, or a member
    of [Object.prototype], which this heap does not hold. *)
Inductive ref :=
| Object (l : loc)
| Builtin.

Definition readMember (h : heap) (r : ref) : option Member :=
  match r with
  | Object l =>
      match h !! l with
      | Some (WordStatsCell ws) => Some (OwnEntry ws)
      | _ => None
      end
  | Builtin => Some InheritedMember
  end.

(** [updateWordStats], with every object literal of the source as one
    [alloc]; [None] stands for a reference that does not hold the object
    its TypeScript type promises. *)
Definition updateWordStats (now : string) (h : heap) (stats : loc)
    (wordId : string) (isCorrect : bool) : option (heap * loc) :=
  match h !! stats with
  | Some (StatsCell correct attempts lastSessionDate wordStatsRef) =>
      let '(h1, wordStats) :=
        match wordStatsRef with
        | Some d => (h, d)
        | None => alloc h (DictCell ∅)
        end in
      match h1 !! wordStats with
      | Some (DictCell entries) =>
          let '(h2, currentWordStats) :=
            match entries !! wordId with
            | Some e => (h1, Object e)
            | None =>
                if JS.inheritedName wordId then (h1, Builtin)
                else
                  let '(h2, l) := alloc h1 (WordStatsCell (WordStats.mk 0 0 now)) in
                  (h2, Object l)
            end in
          match readMember h2 currentWordStats with
          | Some current =>
              let '(h3, entry) :=
                alloc h2
                  (WordStatsCell
                     (WordStats.mk
                        (JS.add (JS.toNumber (memberAttempts current)) 1)
                        (JS.add (JS.toNumber (memberCorrect current))
                           (if isCorrect then 1 else 0))
                        now)) in
              let '(h4, newWordStats) :=
                alloc h3 (DictCell (<[wordId := entry]> entries)) in
              Some (alloc h4
                      (StatsCell correct attempts lastSessionDate (Some newWordStats)))
          | None => None
          end
      | _ => None
      end
  | _ => None
  end.

(** The dictionary with the references [entries] reads as the map [m]. *)
Definition holdsWordStats (h : heap) (entries : gmap string loc)
    (m : gmap string WordStats.t) : Prop :=
  ∀ wordId,
    match entries !! wordId, m !! wordId with
    | Some e, Some ws => h !! e = Some (WordStatsCell ws)
    | None, None => True
    | _, _ => False
    end.

(** The object at [l] reads as the record [stats]. *)
Definition holdsStats (h : heap) (l : loc) (stats : Stats.t) : Prop :=
  ∃ wordStatsRef,
    h !! l = Some (StatsCell (Stats.correct stats) (Stats.attempts stats)
                     (Stats.lastSessionDate stats) wordStatsRef)
    ∧ match wordStatsRef, Stats.wordStats stats with
      | Some d, Some m =>
          ∃ entries, h !! d = Some (DictCell entries) ∧ holdsWordStats h entries m
      | None, None => True
      | _, _ => False
      end.

(** A heap with one record: "Hallo" was answered wrongly once. *)
Definition sampleHeap : heap :=
  {[ 1%positive := StatsCell 0 1 "2024-01-01T00:00:01.001Z" (Some 2%positive);
     2%positive := DictCell {[ "1" := 3%positive ]};
     3%positive := WordStatsCell (WordStats.mk 1 0 "2024-01-01T00:00:01.000Z") ]}.

Definition sampleStats : Stats.t :=
  Stats.mk 0 1 "2024-01-01T00:00:01.001Z"
    (Some {[ "1" := WordStats.mk 1 0 "2024-01-01T00:00:01.000Z" ]}).

End Heap.

(** ** src/store/quizStore.ts *)

Module QuizState.
Record t := mk {
  index : Z;
  mode : Mode;
  difficulty : string;
  shuffled : list VocabItem.t;
  displayWord : option VocabItem.t;
  displayChoices : list Choice.t;
  hasAnswered : bool;
  userInput : string;
  lastResult : option bool;
  showHelp : bool;
  menuOpen : bool;
  statsExpanded : bool;
  isTransitioning : bool;
  stats : Stats.t;
  correct : Z;
  attempts : Z;
}.
End QuizState.

(** The store at run time: the state held by zustand and the number of
    [setTimeout] callbacks that were scheduled and have not run yet. Every
    such callback is [() => get().advanceToNextQuestion()]; no action of the
    store keeps the timer handle or calls [clearTimeout]. *)
Record Store := mkStore {
  get : QuizState.t;
  pendingTimeouts : nat;
}.

(** [set(partial)] of zustand, given as the function that merges the partial
    state into the current one. *)
Definition set (merge : QuizState.t -> QuizState.t) (store : Store) : Store :=
  mkStore (merge (get store)) (pendingTimeouts store).

(** [setTimeout(() => get().advanceToNextQuestion(), 2500)] *)
Definition setTimeout (store : Store) : Store :=
  mkStore (get store) (S (pendingTimeouts store)).

(** [arr[i]]: [undefined] outside of the array. *)
Definition at_index {A} (arr : list A) (i : Z) : option A :=
  if (i <? 0)%Z then None else arr !! Z.to_nat i.

(** The state the store is created with; [stats], [correct] and [attempts]
    are what [migrateOldStats] or the persist middleware found in
    [localStorage], or the zero record. *)
Definition initialState (stats : Stats.t) (correct attempts : Z) : QuizState.t :=
  QuizState.mk 0 de_to_en "all" [] None [] false "" None false false false false
    stats correct attempts.

Import QuizState.

Definition initializeQuiz (rs : Draws) (rc : Draws * Draws)
    (vocab : list VocabItem.t) (difficulty : option string) (store : Store) : Store :=
  let difficulty := default "all" difficulty in
  let currentStats := stats (get store) in
  let failedWordIds := getFailedWordIds currentStats in
  let filtered := filterVocab vocab (Some difficulty) (Some failedWordIds) in
  let shuffled := shuffleArray rs filtered in
  let firstWord := at_index shuffled 0 in
  let choices :=
    match firstWord with
    | Some w => getChoices rc shuffled w (mode (get store))
    | None => []
    end in
  set (fun state =>
         mk 0 (mode state) difficulty shuffled firstWord choices
           (hasAnswered state) (userInput state) (lastResult state)
           (showHelp state) (menuOpen state) (statsExpanded state)
           (isTransitioning state) (stats state) (correct state) (attempts state))
      store.

Definition setMode (rc : Draws * Draws) (mode : Mode) (store : Store) : Store :=
  let state := get store in
  let currentWord := displayWord state in
  match currentWord with
  | Some w =>
      let newChoices := getChoices rc (shuffled state) w mode in
      set (fun state =>
             mk (index state) mode (difficulty state) (shuffled state)
               (displayWord state) newChoices
               (hasAnswered state) (userInput state) (lastResult state)
               (showHelp state) (menuOpen state) (statsExpanded state)
               (isTransitioning state) (stats state) (correct state) (attempts state))
          store
  | None =>
      set (fun state =>
             mk (index state) mode (difficulty state) (shuffled state)
               (displayWord state) (displayChoices state)
               (hasAnswered state) (userInput state) (lastResult state)
               (showHelp state) (menuOpen state) (statsExpanded state)
               (isTransitioning state) (stats state) (correct state) (attempts state))
          store
  end.

Definition setDifficulty (rs : Draws) (rc : Draws * Draws)
    (difficulty : string) (vocab : list VocabItem.t) (store : Store) : Store :=
  let state := get store in
  let failedWordIds := getFailedWordIds (stats state) in
  let filtered := filterVocab vocab (Some difficulty) (Some failedWordIds) in
  let shuffled := shuffleArray rs filtered in
  let firstWord := at_index shuffled 0 in
  let choices :=
    match firstWord with
    | Some w => getChoices rc shuffled w (mode state)
    | None => []
    end in
  set (fun state =>
         mk 0 (mode state) difficulty shuffled firstWord choices
           (hasAnswered state) (userInput state) (lastResult state)
           false (menuOpen state) (statsExpanded state)
           (isTransitioning state) (stats state) (correct state) (attempts state))
      store.

(** [now] is the clock read by [updateWordStats], [nowSession] the later
    read for [lastSessionDate]. *)
Definition handleAnswer (now nowSession : string) (isCorrect : bool)
    (currentWord : VocabItem.t) (store : Store) : Store :=
  let state := get store in
  let newAttempts := attempts state + 1 in
  let newCorrect := correct state + (if isCorrect then 1 else 0) in
  let updatedStats := updateWordStats now (stats state) (VocabItem.id currentWord) isCorrect in
  let store :=
    set (fun state =>
           mk (index state) (mode state) (difficulty state) (shuffled state)
             (displayWord state) (displayChoices state)
             true (userInput state) (Some isCorrect)
             false (menuOpen state) (statsExpanded state)
             true
             (Stats.mk newCorrect newAttempts nowSession (Stats.wordStats updatedStats))
             newCorrect newAttempts)
        store in
  setTimeout store.

Definition advanceToNextQuestion (rc : Draws * Draws) (store : Store) : Store :=
  let state := get store in
  let nextIndex := index state + 1 in
  let nextWord :=
    at_index (shuffled state)
      (Z.rem nextIndex (Z.max 1 (Z.of_nat (length (shuffled state))))) in
  let nextChoices :=
    match nextWord with
    | Some w => getChoices rc (shuffled state) w (mode state)
    | None => []
    end in
  set (fun state =>
         mk nextIndex (mode state) (difficulty state) (shuffled state)
           nextWord nextChoices
           false "" None
           (showHelp state) (menuOpen state) (statsExpanded state)
           false (stats state) (correct state) (attempts state))
      store.

Definition setUserInput (input : string) (store : Store) : Store :=
  set (fun state =>
         mk (index state) (mode state) (difficulty state) (shuffled state)
           (displayWord state) (displayChoices state)
           (hasAnswered state) input (lastResult state)
           (showHelp state) (menuOpen state) (statsExpanded state)
           (isTransitioning state) (stats state) (correct state) (attempts state))
      store.

Definition submitTextAnswer (now nowSession : string) (correctAnswer : string)
    (currentWord : VocabItem.t) (store : Store) : Store :=
  let state := get store in
  if JS.falsy (JS.trim (userInput state)) || hasAnswered state then store
  else
    let isCorrect :=
      bool_decide
        (JS.toLowerCase (JS.trim (userInput state)) = JS.toLowerCase correctAnswer) in
    handleAnswer now nowSession isCorrect currentWord store.

Definition setShowHelp (show : bool) (store : Store) : Store :=
  set (fun state =>
         mk (index state) (mode state) (difficulty state) (shuffled state)
           (displayWord state) (displayChoices state)
           (hasAnswered state) (userInput state) (lastResult state)
           show (menuOpen state) (statsExpanded state)
           (isTransitioning state) (stats state) (correct state) (attempts state))
      store.

Definition toggleShowHelp (store : Store) : Store :=
  set (fun state =>
         mk (index state) (mode state) (difficulty state) (shuffled state)
           (displayWord state) (displayChoices state)
           (hasAnswered state) (userInput state) (lastResult state)
           (negb (showHelp state)) (menuOpen state) (statsExpanded state)
           (isTransitioning state) (stats state) (correct state) (attempts state))
      store.

Definition setMenuOpen (open : bool) (store : Store) : Store :=
  set (fun state =>
         mk (index state) (mode state) (difficulty state) (shuffled state)
           (displayWord state) (displayChoices state)
           (hasAnswered state) (userInput state) (lastResult state)
           (showHelp state) open (statsExpanded state)
           (isTransitioning state) (stats state) (correct state) (attempts state))
      store.

Definition setStatsExpanded (expanded : bool) (store : Store) : Store :=
  set (fun state =>
         mk (index state) (mode state) (difficulty state) (shuffled state)
           (displayWord state) (displayChoices state)
           (hasAnswered state) (userInput state) (lastResult state)
           (showHelp state) (menuOpen state) expanded
           (isTransitioning state) (stats state) (correct state) (attempts state))
      store.

Definition resetStats (now : string) (store : Store) : Store :=
  let resetStats := zeroStats now in
  set (fun state =>
         mk (index state) (mode state) (difficulty state) (shuffled state)
           (displayWord state) (displayChoices state)
           (hasAnswered state) (userInput state) (lastResult state)
           (showHelp state) false (statsExpanded state)
           (isTransitioning state) resetStats
           (Stats.correct resetStats) (Stats.attempts resetStats))
      store.

Definition restartQuiz (store : Store) : Store :=
  set (fun state =>
         mk 0 (mode state) (difficulty state) (shuffled state)
           (displayWord state) (displayChoices state)
           false "" None
           false false (statsExpanded state)
           (isTransitioning state) (stats state) (correct state) (attempts state))
      store.

(** ** The events that reach the store

    [Action] lists the calls of the store's interface [QuizActions];
    [dispatch] runs one. A scheduled callback runs later, at any point
    between two calls: [fireTimeout]. *)

Inductive Action :=
| InitializeQuiz (rs : Draws) (rc : Draws * Draws) (vocab : list VocabItem.t)
    (difficulty : option string)
| SetMode (rc : Draws * Draws) (mode : Mode)
| SetDifficulty (rs : Draws) (rc : Draws * Draws) (difficulty : string)
    (vocab : list VocabItem.t)
| HandleAnswer (now nowSession : string) (isCorrect : bool) (currentWord : VocabItem.t)
| AdvanceToNextQuestion (rc : Draws * Draws)
| SetUserInput (input : string)
| SubmitTextAnswer (now nowSession : string) (correctAnswer : string)
    (currentWord : VocabItem.t)
| ToggleShowHelp
| SetShowHelp (show : bool)
| SetMenuOpen (open : bool)
| SetStatsExpanded (expanded : bool)
| ResetStats (now : string)
| RestartQuiz.

Definition dispatch (a : Action) (store : Store) : Store :=
  match a with
  | InitializeQuiz rs rc vocab difficulty => initializeQuiz rs rc vocab difficulty store
  | SetMode rc mode => setMode rc mode store
  | SetDifficulty rs rc difficulty vocab => setDifficulty rs rc difficulty vocab store
  | HandleAnswer now nowSession isCorrect currentWord =>
      handleAnswer now nowSession isCorrect currentWord store
  | AdvanceToNextQuestion rc => advanceToNextQuestion rc store
  | SetUserInput input => setUserInput input store
  | SubmitTextAnswer now nowSession correctAnswer currentWord =>
      submitTextAnswer now nowSession correctAnswer currentWord store
  | ToggleShowHelp => toggleShowHelp store
  | SetShowHelp show => setShowHelp show store
  | SetMenuOpen open => setMenuOpen open store
  | SetStatsExpanded expanded => setStatsExpanded expanded store
  | ResetStats now => resetStats now store
  | RestartQuiz => restartQuiz store
  end.

(** One pending callback runs: it leaves the queue and calls
    [get().advanceToNextQuestion()]. *)
Definition fireTimeout (rc : Draws * Draws) (store : Store) : option Store :=
  match pendingTimeouts store with
  | O => None
  | S n => Some (advanceToNextQuestion rc (mkStore (get store) n))
  end.

Inductive step : Store -> Store -> Prop :=
| step_dispatch a store : step store (dispatch a store)
| step_timeout rc store store' :
    fireTimeout rc store = Some store' -> step store store'.

Inductive reachable : Store -> Prop :=
| reachable_initial stats correct attempts :
    reachable (mkStore (initialState stats correct attempts) 0)
| reachable_step store store' :
    reachable store -> step store store' -> reachable store'.

(** ** The component (App.tsx): how clicks reach the store

    The choice buttons are rendered while [showHelp] holds and a word is
    displayed, with [disabled={hasAnswered}]; a disabled button delivers no
    click. *)

Definition clickChoice (now nowSession : string) (i : nat) (store : Store) : Store :=
  let state := get store in
  match displayWord state, displayChoices state !! i with
  | Some w, Some choice =>
      if bool_decide (shuffled state = []) || negb (showHelp state) || hasAnswered state
      then store
      else handleAnswer now nowSession (Choice.isCorrect choice) w store
  | _, _ => store
  end.

Definition handleTextSubmit (now nowSession : string) (store : Store) : Store :=
  let state := get store in
  match displayWord state with
  | None => store
  | Some w =>
      let correctAnswer := target (mode state) w in
      submitTextAnswer now nowSession correctAnswer w store
  end.

(** A run of the application: calls of the store interleaved with
    callbacks that come due. *)
Inductive Event :=
| Call (a : Action)
| Timeout (rc : Draws * Draws).

Definition runEvent (e : Event) (store : Store) : option Store :=
  match e with
  | Call a => Some (dispatch a store)
  | Timeout rc => fireTimeout rc store
  end.

Fixpoint runEvents (es : list Event) (store : Store) : option Store :=
  match es with
  | [] => Some store
  | e :: es' =>
      match runEvent e store with
      | Some store' => runEvents es' store'
      | None => None
      end
  end.

(** The word and the choices the learner sees. *)
Definition display (store : Store) : option VocabItem.t * list Choice.t :=
  (displayWord (get store), displayChoices (get store)).

(** The actions that keep the display as it is; the others are
    [InitializeQuiz], [SetDifficulty], [AdvanceToNextQuestion] and
    [SetMode]. *)
Definition keepsDisplay (a : Action) : bool :=
  match a with
  | InitializeQuiz _ _ _ _ | SetDifficulty _ _ _ _ | AdvanceToNextQuestion _
  | SetMode _ _ => false
  | _ => true
  end.

Definition isAdvance (a : Action) : bool :=
  match a with AdvanceToNextQuestion _ => true | _ => false end.

(** ** Case-insensitive comparison, as the specification words it

    Two code units are the same letter when they are equal or one is the
    upper-case form of the other; two strings match when they have the same
    length and the same letters. *)

Definition sameLetter (c d : ascii) : Prop :=
  c = d
  ∨ (JS.isUpper c = true ∧ JS.code d = (JS.code c + 32)%N)
  ∨ (JS.isUpper d = true ∧ JS.code c = (JS.code d + 32)%N).

Inductive equalIgnoringCase : string → string → Prop :=
| equalIgnoringCase_empty : equalIgnoringCase "" ""
| equalIgnoringCase_letter c d s t :
    sameLetter c d → equalIgnoringCase s t →
    equalIgnoringCase (String c s) (String d t).

(** A string that is white space only. *)
Fixpoint allWhiteSpace (s : string) : bool :=
  match s with
  | EmptyString => true
  | String c r => JS.isWhiteSpace c && allWhiteSpace r
  end.

Definition startsWithWhiteSpace (s : string) : bool :=
  match s with
  | EmptyString => false
  | String c _ => JS.isWhiteSpace c
  end.

Fixpoint endsWithWhiteSpace (s : string) : bool :=
  match s with
  | EmptyString => false
  | String c EmptyString => JS.isWhiteSpace c
  | String _ r => endsWithWhiteSpace r
  end.

(** White-space trimming, as the specification words it: [core] is [input]
    without its leading and its trailing white space. *)
Definition trimmedTo (input core : string) : Prop :=
  ∃ leading trailing,
    input = String.append leading (String.append core trailing)
    ∧ allWhiteSpace leading = true
    ∧ allWhiteSpace trailing = true
    ∧ startsWithWhiteSpace core = false
    ∧ endsWithWhiteSpace core = false.

(** The match the specification asks of a typed answer: trimmed of white
    space, the input equals the term up to letter case. *)
Definition matchesTerm (input term : string) : Prop :=
  ∃ core, trimmedTo input core ∧ equalIgnoringCase core term.

(** The match as the specification words it: the input and the term, both
    trimmed of white space, are equal up to letter case. *)
Definition matchesBothTrimmed (input term : string) : Prop :=
  ∃ core core',
    trimmedTo input core ∧ trimmedTo term core' ∧ equalIgnoringCase core core'.

(** ** The vocabulary of quizStore.test.ts *)

Definition hallo := VocabItem.mk "1" "Hallo" "Hello" "easy" [].
Definition tschuess :=
  VocabItem.mk "2" (String.append "Tsch" (String "252"%char "ss")) "Goodbye" "easy" [].
Definition danke := VocabItem.mk "3" "Danke" "Thank you" "medium" [].
Definition bitte := VocabItem.mk "4" "Bitte" "Please" "medium" [].
Definition entschuldigung := VocabItem.mk "5" "Entschuldigung" "Excuse me" "hard" [].

(** A vocabulary item whose id is the name of a member of
    [Object.prototype]. *)
Definition konstruktor :=
  VocabItem.mk "constructor" "Konstruktor" "constructor" "hard" [].

Definition mockVocab : list VocabItem.t :=
  [hallo; tschuess; danke; bitte; entschuldigung].

(** ** Sessions on the test vocabulary *)

(** A fresh store, as in the tests' [beforeEach]. *)
Definition freshStore : Store :=
  mkStore (initialState (zeroStats "2024-01-01T00:00:00.000Z") 0 0) 0.

Definition draws0 : Draws * Draws := ([], []).

(** The quiz is initialised, the learner opens the options and clicks the
    choice that is correct for the displayed word "Hallo". *)
Definition answeredStore : Store :=
  handleAnswer "2024-01-01T00:00:01.000Z" "2024-01-01T00:00:01.001Z" true hallo
    (toggleShowHelp (initializeQuiz [4; 3; 2; 1]%nat draws0 mockVocab None freshStore)).

(** While the feedback is shown the learner restarts the quiz from the menu. *)
Definition restartedStore : Store := restartQuiz answeredStore.

(** A two-word deck: the first word is answered, the callback advances to
    the second word, and the learner restarts the quiz. *)
Definition twoWordStore : Store :=
  initializeQuiz [1%nat] draws0 [hallo; tschuess] None freshStore.

Definition twoWordEvents : list Event :=
  [ Call (InitializeQuiz [1%nat] draws0 [hallo; tschuess] None);
    Call ToggleShowHelp;
    Call (HandleAnswer "2024-01-01T00:00:01.000Z" "2024-01-01T00:00:01.001Z" true hallo);
    Timeout draws0;
    Call RestartQuiz ].

Definition restartedOnSecondWord : Store :=
  restartQuiz
    (advanceToNextQuestion draws0
       (mkStore
          (get (handleAnswer "2024-01-01T00:00:01.000Z" "2024-01-01T00:00:01.001Z"
                  true hallo (toggleShowHelp twoWordStore)))
          0)).

(** ** A record stored by an older version *)

(** JSON text written with apostrophes in place of the double quotes. *)
Fixpoint jsonText (s : string) : string :=
  match s with
  | EmptyString => EmptyString
  | String c r => String (if Ascii.eqb c "'" then JSON.dquote else c) (jsonText r)
  end.

(** The record that a version without per-word statistics saved. *)
Definition oldRecord : JSON.value :=
  JSON.JObject
    [ ("correct", JSON.JNumber 3);
      ("attempts", JSON.JNumber 5);
      ("lastSessionDate", JSON.JString "2023-05-01T10:00:00.000Z") ].

(** The stored item, if there is one, is a text that [JSON.stringify]
    wrote. *)
Definition writtenByStringify (storage : LocalStorage) : Prop :=
  match items storage !! STATS_KEY with
  | None => True
  | Some stored => ∃ v, stored = JSON.stringify v
  end.

Definition oldStorage : LocalStorage :=
  mkLocalStorage {[ STATS_KEY := JSON.stringify oldRecord ]} true.

(** ** Runs of the store and sums over the statistics *)

(** The store of an application that starts with nothing persisted. *)
Definition newStore (now : string) : Store :=
  mkStore (initialState (zeroStats now) 0 0) 0.

(** Several advances in a row, each with its own draws. *)
Definition advanceAll (rcs : list (Draws * Draws)) (store : Store) : Store :=
  foldl (fun store rc => advanceToNextQuestion rc store) store rcs.

(** The attempts and the correct answers summed over all words. *)
Definition totalAttempts (wordStats : gmap string WordStats.t) : JS.number :=
  map_fold (fun _ ws total => JS.add (WordStats.attempts ws) total) (JS.Num 0) wordStats.

Definition totalCorrect (wordStats : gmap string WordStats.t) : JS.number :=
  map_fold (fun _ ws total => JS.add (WordStats.correct ws) total) (JS.Num 0) wordStats.

(** The display fits the deck and the mode: a displayed word is in the
    deck and comes with at most four choices, exactly one of them marked
    correct and carrying the word's term in the target language; without a
    displayed word there are no choices. *)
Definition displayConsistent (state : QuizState.t) : Prop :=
  match displayWord state with
  | Some w =>
      w ∈ shuffled state
      ∧ List.filter Choice.isCorrect (displayChoices state)
        = [Choice.mk (target (mode state) w) true]
      ∧ (1 ≤ length (displayChoices state) ≤ 4)%nat
  | None => displayChoices state = []
  end.

(** The counters fit together: the aggregate counters and their copies in
    the statistics record agree and equal the sums over the per-word
    entries, and every entry has between 0 and [attempts] correct answers
    and at least one attempt. *)
Definition countersConsistent (state : QuizState.t) : Prop :=
  let wordStats := orEmpty (Stats.wordStats (stats state)) in
  Stats.correct (stats state) = correct state
  ∧ Stats.attempts (stats state) = attempts state
  ∧ totalAttempts wordStats = JS.Num (attempts state)
  ∧ totalCorrect wordStats = JS.Num (correct state)
  ∧ 0 ≤ correct state ≤ attempts state
  ∧ map_Forall
      (fun _ ws =>
         ∃ a c, WordStats.attempts ws = JS.Num a ∧ WordStats.correct ws = JS.Num c
                ∧ 0 ≤ c ≤ a ∧ 1 ≤ a)
      wordStats.

(** The actions and events that answer no word whose id is the name of a
    member of [Object.prototype]. *)
Definition plainAction (a : Action) : bool :=
  match a with
  | HandleAnswer _ _ _ w | SubmitTextAnswer _ _ _ w =>
      negb (JS.inheritedName (VocabItem.id w))
  | _ => true
  end.

Definition plainEvent (e : Event) : bool :=
  match e with
  | Call a => plainAction a
  | Timeout _ => true
  end.

Definition isResetStats (a : Action) : bool :=
  match a with ResetStats _ => true | _ => false end.

(** The actions that can write the statistics and the counters, those that
    can replace the deck, and the one that sets the mode. *)
Definition changesStats (a : Action) : bool :=
  match a with
  | HandleAnswer _ _ _ _ | SubmitTextAnswer _ _ _ _ | ResetStats _ => true
  | _ => false
  end.

Definition changesDeck (a : Action) : bool :=
  match a with
  | InitializeQuiz _ _ _ _ | SetDifficulty _ _ _ _ => true
  | _ => false
  end.

Definition isSetMode (a : Action) : bool :=
  match a with SetMode _ _ => true | _ => false end.

(** * Properties *)

(** ** Lists *)

Section list_facts.
Context {A : Type}.
Implicit Types (l : list A) (f : A -> bool).

Lemma elem_of_List_filter f l x : x ∈ List.filter f l ↔ x ∈ l ∧ f x = true.
Proof. rewrite !list_elem_of_In. apply filter_In. Qed.

Lemma List_filter_sublist f l : List.filter f l `sublist_of` l.
Proof.
  induction l as [|x l IH]; simpl; [constructor|].
  destruct (f x); by constructor.
Qed.

Lemma List_filter_NoDup f l : NoDup l → NoDup (List.filter f l).
Proof. intros H. eapply sublist_NoDup; [exact H | apply List_filter_sublist]. Qed.

Lemma insertAt_Permutation n x l : insertAt n x l ≡ₚ x :: l.
Proof.
  revert n. induction l as [|y l IH]; intros [|n]; simpl; try done.
  rewrite IH. apply perm_swap.
Qed.

Lemma insertAt_length_app x l1 l2 : insertAt (length l1) x (l1 ++ l2) = l1 ++ x :: l2.
Proof. induction l1 as [|y l1 IH]; simpl; [by destruct l2 | by rewrite IH]. Qed.

(** Whatever the draws, the result is an arrangement of the input. *)
Lemma randomSort_Permutation rs l : randomSort rs l ≡ₚ l.
Proof.
  revert rs. induction l as [|x l IH]; intros rs; simpl; [done|].
  destruct rs as [|r rs].
  - by rewrite IH.
  - by rewrite insertAt_Permutation, IH.
Qed.

(** Every arrangement of the input is the result of some draws. *)
Lemma randomSort_complete l l' : l ≡ₚ l' → ∃ rs, randomSort rs l = l'.
Proof.
  revert l'. induction l as [|x l IH]; intros l' Hp.
  - apply Permutation_nil_l in Hp as <-. by exists [].
  - assert (x ∈ l') as Hx by (rewrite <- Hp; left).
    apply list_elem_of_split in Hx as (l1 & l2 & ->).
    apply Permutation_cons_app_inv in Hp.
    destruct (IH _ Hp) as [rs Hrs].
    exists (length l1 :: rs). simpl. rewrite Hrs. apply insertAt_length_app.
Qed.

Lemma randomSort_length rs l : length (randomSort rs l) = length l.
Proof. apply Permutation_length, randomSort_Permutation. Qed.

Lemma swap_Permutation l i j : swap l i j ≡ₚ l.
Proof.
  unfold swap.
  destruct (l !! i) as [x|] eqn:Hi; [|done].
  destruct (l !! j) as [y|] eqn:Hj; [|done].
  destruct (decide (i = j)) as [->|Hne].
  - rewrite list_insert_insert_eq. assert (x = y) as -> by congruence.
    by rewrite list_insert_id.
  - symmetry. apply Permutation_inj. split.
    + by rewrite !length_insert.
    + exists (λ k, if decide (k = i) then j else if decide (k = j) then i else k).
      split.
      * intros a b. repeat case_decide; congruence.
      * intros k. repeat case_decide; subst.
        -- rewrite list_lookup_insert_ne by done.
           rewrite list_lookup_insert_eq; [done|]. by eapply lookup_lt_Some.
        -- rewrite list_lookup_insert_eq; [done|].
           rewrite length_insert. by eapply lookup_lt_Some.
        -- by rewrite !list_lookup_insert_ne by done.
Qed.

Lemma shuffleLoop_Permutation i rs l : shuffleLoop i rs l ≡ₚ l.
Proof.
  revert rs l. induction i as [|i IH]; intros rs l; simpl; [done|].
  by rewrite IH, swap_Permutation.
Qed.

(** Fisher-Yates returns an arrangement of its input. *)
Lemma shuffleArray_Permutation rs l : shuffleArray rs l ≡ₚ l.
Proof. apply shuffleLoop_Permutation. Qed.
End list_facts.

Section filter_facts.
Context {A : Type}.
Implicit Types (l : list A) (f : A -> bool).

Lemma List_filter_Permutation f l l' :
  l ≡ₚ l' → List.filter f l ≡ₚ List.filter f l'.
Proof.
  induction 1 as [|x l l' _ IH|x y l|l l' l'' _ IH1 _ IH2]; simpl.
  - done.
  - destruct (f x); by rewrite IH.
  - destruct (f x), (f y); try done. apply perm_swap.
  - by rewrite IH1.
Qed.

Lemma List_filter_all f l : (∀ x, x ∈ l → f x = true) → List.filter f l = l.
Proof.
  induction l as [|x l IH]; intros H; simpl; [done|].
  rewrite (H x) by left. f_equal. apply IH. intros y Hy. apply H. by right.
Qed.

Lemma List_filter_none f l : (∀ x, x ∈ l → f x = false) → List.filter f l = [].
Proof.
  induction l as [|x l IH]; intros H; simpl; [done|].
  rewrite (H x) by left. apply IH. intros y Hy. apply H. by right.
Qed.
End filter_facts.

(** ** helpers.ts: getChoices *)

Lemma others_length vocab current :
  NoDup (VocabItem.id <$> vocab) → current ∈ vocab →
  length (List.filter (isOther current) vocab) = (length vocab - 1)%nat.
Proof.
  induction vocab as [|v vocab IH]; intros Hnd Hin; [by apply elem_of_nil in Hin|].
  apply NoDup_cons in Hnd as [Hv Hnd]. simpl. unfold isOther at 1.
  destruct (decide (VocabItem.id v = VocabItem.id current)) as [Heq|Hne].
  - rewrite bool_decide_eq_true_2 by done. simpl.
    rewrite List_filter_all; [lia|].
    intros x Hx. unfold isOther. rewrite bool_decide_eq_false_2; [done|].
    intros Hxe. apply Hv. rewrite Heq, <- Hxe. by apply list_elem_of_fmap_2.
  - rewrite bool_decide_eq_false_2 by done. simpl.
    apply elem_of_cons in Hin as [->|Hin]; [done|].
    rewrite IH by done.
    apply list_elem_of_split in Hin as (l1 & l2 & ->).
    rewrite length_app. simpl. lia.
Qed.

(** C4. On a working set with distinct ids that contains the current word,
    [getChoices] returns [min 4 (length vocab)] options; exactly one is
    marked correct and carries the current word's term in the target
    language of the mode, its English term in the mode de-to-en and its
    German term in the mode en-to-de; the others are the terms, in the same
    language, of pairwise distinct items of the working set, none of which
    is the current word. This holds for every outcome of the two random
    sorts. *)
Theorem getChoices_spec rs vocab current mode :
  NoDup (VocabItem.id <$> vocab) → current ∈ vocab →
  let choices := getChoices rs vocab current mode in
  let term := λ v, match mode with
                   | de_to_en => VocabItem.en v
                   | en_to_de => VocabItem.de v
                   end in
  length choices = Nat.min 4 (length vocab)
  ∧ List.filter Choice.isCorrect choices = [Choice.mk (term current) true]
  ∧ ∃ distractors,
      NoDup distractors
      ∧ NoDup (VocabItem.id <$> distractors)
      ∧ (∀ d, d ∈ distractors → d ∈ vocab ∧ VocabItem.id d ≠ VocabItem.id current)
      ∧ List.filter (λ c, negb (Choice.isCorrect c)) choices
          ≡ₚ List.map (λ v, Choice.mk (term v) false) distractors.
Proof.
  intros Hnd Hin choices term. subst choices.
  assert (∀ v, term v = target mode v) as Hterm by (intros v; by destruct mode).
  rewrite Hterm.
  assert (∀ l, List.map (λ v, Choice.mk (term v) false) l
               = List.map (λ v, Choice.mk (target mode v) false) l) as Hmap.
  { intros l. apply map_ext. intros v. by rewrite Hterm. }
  setoid_rewrite Hmap. clear Hterm Hmap term.
  unfold getChoices.
  set (others := List.filter (isOther current) vocab).
  set (distractors := take 3 (randomSort rs.1 others)).
  set (wrong := List.map (λ v, Choice.mk (target mode v) false) distractors).
  assert (List.filter Choice.isCorrect wrong = []) as Hwrong1.
  { apply List_filter_none. intros c Hc. subst wrong.
    apply list_elem_of_In, in_map_iff in Hc as (v & <- & _). done. }
  assert (List.filter (λ c, negb (Choice.isCorrect c)) wrong = wrong) as Hwrong2.
  { apply List_filter_all. intros c Hc. subst wrong.
    apply list_elem_of_In, in_map_iff in Hc as (v & <- & _). done. }
  assert (NoDup (VocabItem.id <$> others)) as Hnd_others.
  { subst others. eapply sublist_NoDup; [exact Hnd|].
    apply fmap_sublist, List_filter_sublist. }
  assert (NoDup (VocabItem.id <$> distractors)) as Hnd_ids.
  { subst distractors. eapply sublist_NoDup; [|apply fmap_sublist, sublist_take].
    by rewrite randomSort_Permutation. }
  split; [|split].
  - rewrite randomSort_length. cbn [length]. subst wrong distractors.
    rewrite length_map, length_take, randomSort_length.
    subst others. rewrite others_length by done.
    apply list_elem_of_split in Hin as (l1 & l2 & ->).
    rewrite length_app. cbn [length]. lia.
  - apply Permutation_singleton_r.
    rewrite (List_filter_Permutation _ _ _ (randomSort_Permutation _ _)).
    simpl. by rewrite Hwrong1.
  - exists distractors. split; [|split; [|split]].
    + by eapply NoDup_fmap_1.
    + done.
    + intros d Hd. subst distractors.
      apply elem_of_take in Hd as (i & Hd & _).
      apply list_elem_of_lookup_2 in Hd.
      rewrite randomSort_Permutation in Hd. subst others.
      apply elem_of_List_filter in Hd as [Hd Hother]. split; [done|].
      unfold isOther in Hother. apply negb_true_iff, bool_decide_eq_false in Hother. done.
    + rewrite (List_filter_Permutation _ _ _ (randomSort_Permutation _ _)).
      simpl. by rewrite Hwrong2.
Qed.

Lemma getChoices_spec_witness :
  (let choices := getChoices ([2; 0; 1]%nat, [1; 3; 0]%nat) mockVocab hallo en_to_de in
   length choices = 4%nat
   ∧ List.filter Choice.isCorrect choices = [Choice.mk "Hallo" true]
   ∧ ∃ distractors,
       NoDup distractors
       ∧ NoDup (VocabItem.id <$> distractors)
       ∧ (∀ d, d ∈ distractors → d ∈ mockVocab ∧ VocabItem.id d ≠ "1")
       ∧ List.filter (λ c, negb (Choice.isCorrect c)) choices
           ≡ₚ List.map (λ v, Choice.mk (VocabItem.de v) false) distractors)
  ∧ (let choices := getChoices ([2; 0; 1]%nat, [1; 3; 0]%nat) mockVocab hallo de_to_en in
     length choices = 4%nat
     ∧ List.filter Choice.isCorrect choices = [Choice.mk "Hello" true]
     ∧ ∃ distractors,
         NoDup distractors
         ∧ NoDup (VocabItem.id <$> distractors)
         ∧ (∀ d, d ∈ distractors → d ∈ mockVocab ∧ VocabItem.id d ≠ "1")
         ∧ List.filter (λ c, negb (Choice.isCorrect c)) choices
             ≡ₚ List.map (λ v, Choice.mk (VocabItem.en v) false) distractors).
Proof.
  split.
  - apply (getChoices_spec ([2; 0; 1]%nat, [1; 3; 0]%nat) mockVocab hallo en_to_de).
    + apply (bool_decide_unpack _). vm_compute. exact I.
    + left.
  - apply (getChoices_spec ([2; 0; 1]%nat, [1; 3; 0]%nat) mockVocab hallo de_to_en).
    + apply (bool_decide_unpack _). vm_compute. exact I.
    + left.
Defined.

(** ** helpers.ts and storage.ts: filterVocab, getFailedWordIds *)

Lemma elem_of_keys (wordStats : gmap string WordStats.t) wordId :
  wordId ∈ keys wordStats ↔ is_Some (wordStats !! wordId).
Proof.
  unfold keys. rewrite list_elem_of_fmap. split.
  - intros ([k ws] & -> & H). apply elem_of_map_to_list in H. by exists ws.
  - intros [ws H]. exists (wordId, ws). split; [done|]. by apply elem_of_map_to_list.
Qed.

Lemma getFailedWordIds_elem stats wordId :
  wordId ∈ getFailedWordIds stats ↔
  ∃ ws, orEmpty (Stats.wordStats stats) !! wordId = Some ws
        ∧ JS.gt (WordStats.attempts ws) (WordStats.correct ws).
Proof.
  unfold getFailedWordIds. rewrite elem_of_List_filter, elem_of_keys. split.
  - intros [[ws Hws] H]. rewrite Hws in H. by exists ws.
  - intros (ws & Hws & H). split; [by exists ws|]. by rewrite Hws.
Qed.

(** [x > y] holds for two integers only. *)
Lemma gt_Num x y : JS.gt x y ↔ ∃ a b, x = JS.Num a ∧ y = JS.Num b ∧ a > b.
Proof.
  unfold JS.gt. split.
  - destruct x as [a|], y as [b|]; simpl; try done.
    intros H. exists a, b. split; [done|]. split; [done|]. by apply Z.gtb_gt.
  - intros (a & b & -> & -> & H). simpl. by apply Z.gtb_gt.
Qed.

Lemma getFailedWordIds_NoDup stats : NoDup (getFailedWordIds stats).
Proof. apply List_filter_NoDup, NoDup_fst_map_to_list. Qed.

(** C5, as stated, fails at the empty selector: the guard [!difficulty]
    treats the empty string like an absent selector, so every item passes,
    whatever its difficulty. *)
Lemma filterVocab_empty_selector :
  "" ≠ "all" ∧ "" ≠ "failed"
  ∧ hallo ∈ filterVocab [hallo] (Some "") (Some [])
  ∧ VocabItem.difficulty hallo ≠ "".
Proof. repeat split; try done. vm_compute. left. Qed.

(** C5, amended. The result of [filterVocab] is a sublist of the input. For
    a non-empty selector other than "all" and "failed" it holds exactly the
    items of that difficulty. For the selector "failed" and a given list of
    failed ids it is exactly the input filtered by membership of the id in
    that list. [getFailedWordIds] returns, without repetition, exactly the
    ids whose entry has [attempts > correct]. *)
Theorem filterVocab_spec items difficulty failedWordIds stats :
  filterVocab items difficulty failedWordIds `sublist_of` items
  ∧ (∀ d, difficulty = Some d → d ≠ "" → d ≠ "all" → d ≠ "failed" →
       ∀ it, it ∈ filterVocab items difficulty failedWordIds
             ↔ it ∈ items ∧ VocabItem.difficulty it = d)
  ∧ (∀ ids, difficulty = Some "failed" → failedWordIds = Some ids →
       filterVocab items difficulty failedWordIds
       = List.filter (λ it, bool_decide (VocabItem.id it ∈ ids)) items)
  ∧ NoDup (getFailedWordIds stats)
  ∧ (∀ wordId, wordId ∈ getFailedWordIds stats ↔
       ∃ ws, orEmpty (Stats.wordStats stats) !! wordId = Some ws
             ∧ JS.gt (WordStats.attempts ws) (WordStats.correct ws)).
Proof.
  split; [apply List_filter_sublist|].
  split; [|split; [|split; [apply getFailedWordIds_NoDup|apply getFailedWordIds_elem]]].
  - intros d -> Hne Hall Hfailed it. unfold filterVocab.
    rewrite elem_of_List_filter.
    rewrite bool_decide_eq_false_2 by congruence.
    destruct d as [|c d]; [done|]. simpl.
    rewrite (bool_decide_eq_false_2 _ Hall). simpl.
    destruct (decide (VocabItem.difficulty it = String c d)) as [Heq|Hneq].
    + rewrite bool_decide_eq_true_2 by done. simpl. tauto.
    + rewrite bool_decide_eq_false_2 by done. simpl. split; [intros [_ ?]; done|tauto].
  - intros ids -> ->. unfold filterVocab. by rewrite bool_decide_eq_true_2.
Qed.

Lemma filterVocab_spec_witness :
  (∀ it, it ∈ filterVocab mockVocab (Some "easy") (Some [])
         ↔ it ∈ mockVocab ∧ VocabItem.difficulty it = "easy")
  ∧ filterVocab mockVocab (Some "failed") (Some ["3"])
    = List.filter (λ it, bool_decide (VocabItem.id it ∈ ["3"])) mockVocab.
Proof.
  split.
  - destruct (filterVocab_spec mockVocab (Some "easy") (Some []) (zeroStats ""))
      as (_ & H & _).
    apply (H "easy"); done.
  - destruct (filterVocab_spec mockVocab (Some "failed") (Some ["3"]) (zeroStats ""))
      as (_ & _ & H & _).
    apply (H ["3"]); done.
Defined.

(** ** quizStore.ts: runs and reachable stores *)

Lemma reachable_runEvents es store store' :
  reachable store → runEvents es store = Some store' → reachable store'.
Proof.
  revert store. induction es as [|e es IH]; intros store Hr Hrun; simpl in Hrun.
  - by simplify_eq.
  - destruct (runEvent e store) as [store1|] eqn:He; [|done].
    eapply IH; [|exact Hrun].
    eapply reachable_step; [exact Hr|].
    destruct e as [a|rc]; simpl in He.
    + simplify_eq. apply step_dispatch.
    + by eapply step_timeout.
Qed.

Lemma reachable_freshStore : reachable freshStore.
Proof. apply reachable_initial. Qed.

Lemma reachable_answeredStore : reachable answeredStore.
Proof.
  apply (reachable_runEvents
           [ Call (InitializeQuiz [4; 3; 2; 1]%nat draws0 mockVocab None);
             Call ToggleShowHelp;
             Call (HandleAnswer "2024-01-01T00:00:01.000Z" "2024-01-01T00:00:01.001Z"
                     true hallo) ]
           freshStore); [apply reachable_freshStore | reflexivity].
Qed.


(** The index is a count: it is never negative in a reachable store. *)
Lemma reachable_index_nonneg store : reachable store → 0 ≤ index (get store).
Proof.
  induction 1 as [|store store' _ IH Hstep]; [done|].
  destruct Hstep as [a store|rc store store' Hfire].
  - destruct a; simpl; try done; try lia.
    + unfold setMode. by destruct (displayWord (get store)).
    + unfold submitTextAnswer.
      by destruct (JS.falsy _ || hasAnswered (get store)).
  - unfold fireTimeout in Hfire.
    destruct (pendingTimeouts store); simplify_eq. simpl in *. lia.
Qed.

(** ** quizStore.ts: the frozen display (C1) *)

(** [handleAnswer] never touches the display, whatever the state. *)
Lemma handleAnswer_display now nowSession isCorrect currentWord store :
  display (handleAnswer now nowSession isCorrect currentWord store) = display store.
Proof. done. Qed.

Lemma submitTextAnswer_display now nowSession correctAnswer currentWord store :
  display (submitTextAnswer now nowSession correctAnswer currentWord store)
  = display store.
Proof.
  unfold submitTextAnswer.
  by destruct (JS.falsy _ || hasAnswered (get store)).
Qed.

(** C1, as stated, fails: while the feedback for "Hallo" is shown
    ([hasAnswered] holds), selecting the other direction regenerates the
    choices, which then read in German. *)
Lemma setMode_changes_frozen_choices :
  reachable answeredStore
  ∧ hasAnswered (get answeredStore) = true
  ∧ isAdvance (SetMode draws0 en_to_de) = false
  ∧ displayChoices (get answeredStore)
    = [Choice.mk "Hello" true; Choice.mk "Goodbye" false;
       Choice.mk "Thank you" false; Choice.mk "Please" false]
  ∧ displayChoices (get (dispatch (SetMode draws0 en_to_de) answeredStore))
    ≠ displayChoices (get answeredStore).
Proof.
  split; [apply reachable_answeredStore|].
  repeat split. vm_compute. discriminate.
Qed.

(** C1, amended. In every state, and so in particular while [hasAnswered]
    holds, every action other than [initializeQuiz], [setDifficulty],
    [advanceToNextQuestion] and [setMode] leaves [displayWord] and
    [displayChoices] as they are; [setMode] leaves [displayWord] as it is
    and replaces [displayChoices] by the choices of that same word under
    the new mode. [handleAnswer] leaves both as they were. *)
Theorem display_frozen_while_answered store :
  (∀ a, keepsDisplay a = true → display (dispatch a store) = display store)
  ∧ (∀ rc mode,
       displayWord (get (setMode rc mode store)) = displayWord (get store)
       ∧ displayChoices (get (setMode rc mode store))
         = match displayWord (get store) with
           | Some w => getChoices rc (shuffled (get store)) w mode
           | None => displayChoices (get store)
           end)
  ∧ (∀ now nowSession isCorrect currentWord,
       display (handleAnswer now nowSession isCorrect currentWord store)
       = display store).
Proof.
  split; [|split].
  - intros a Ha. destruct a; simpl in Ha; try done.
    apply submitTextAnswer_display.
  - intros rc mode. unfold setMode.
    destruct (displayWord (get store)) as [w|] eqn:Hw; simpl; by rewrite Hw.
  - intros. apply handleAnswer_display.
Qed.

Lemma display_frozen_while_answered_witness :
  hasAnswered (get answeredStore) = true
  ∧ display (dispatch RestartQuiz answeredStore) = display answeredStore
  ∧ displayWord (get (setMode draws0 en_to_de answeredStore)) = Some hallo.
Proof.
  destruct (display_frozen_while_answered answeredStore) as (Hkeep & Hmode & _).
  split; [reflexivity|]. split.
  - apply Hkeep. reflexivity.
  - destruct (Hmode draws0 en_to_de) as [-> _]. reflexivity.
Defined.

(** ** quizStore.ts: a callback that outlives a restart (C2) *)

(** C2, as stated, fails: the learner answers "Hallo", restarts the quiz
    while the feedback is shown, and the callback scheduled by the answer
    then comes due. It moves the session to position 1 and to the second
    word of the deck. *)
Lemma stale_timeout_moves_restarted_session :
  restartedStore = restartQuiz answeredStore
  ∧ index (get restartedStore) = 0
  ∧ ∃ store',
      fireTimeout draws0 restartedStore = Some store'
      ∧ index (get store') = 1
      ∧ index (get store') ≠ 0
      ∧ displayWord (get store') = Some tschuess
      ∧ at_index (shuffled (get restartedStore)) 0 = Some hallo.
Proof.
  split; [done|]. split; [done|].
  eexists. split; [reflexivity|]. repeat split. discriminate.
Qed.

(** C2, amended. After [handleAnswer] followed by [restartQuiz] the callback
    is still pending, and when it runs it advances the restarted session:
    the index becomes 1 and the displayed word the deck's item at position
    1 (modulo the deck's length). The deck, the mode, the difficulty and
    the statistics of the restarted session are left as they are, and the
    answer flags stay cleared. *)
Theorem stale_timeout_after_restart now nowSession isCorrect currentWord rc store :
  let restarted := restartQuiz (handleAnswer now nowSession isCorrect currentWord store) in
  let deck := shuffled (get store) in
  index (get restarted) = 0
  ∧ pendingTimeouts restarted = S (pendingTimeouts store)
  ∧ ∃ store',
      fireTimeout rc restarted = Some store'
      ∧ pendingTimeouts store' = pendingTimeouts store
      ∧ index (get store') = 1
      ∧ displayWord (get store')
        = at_index deck (Z.rem 1 (Z.max 1 (Z.of_nat (length deck))))
      ∧ shuffled (get store') = deck
      ∧ mode (get store') = mode (get store)
      ∧ difficulty (get store') = difficulty (get store)
      ∧ stats (get store') = stats (get restarted)
      ∧ correct (get store') = correct (get store) + (if isCorrect then 1 else 0)
      ∧ attempts (get store') = attempts (get store) + 1
      ∧ hasAnswered (get store') = false
      ∧ lastResult (get store') = None
      ∧ userInput (get store') = "".
Proof.
  intros restarted deck. split; [done|]. split; [done|].
  eexists. split; [reflexivity|]. by repeat split.
Qed.

(** ** JavaScript strings: trim and toLowerCase *)

Lemma append_empty_l s : String.append "" s = s.
Proof. done. Qed.

Lemma append_String c s t : String.append (String c s) t = String c (String.append s t).
Proof. done. Qed.

Lemma append_empty_r s : String.append s "" = s.
Proof. induction s as [|c s IH]; [done|]. rewrite append_String. by f_equal. Qed.

Lemma trimStart_empty s : JS.trimStart s = "" ↔ allWhiteSpace s = true.
Proof.
  induction s as [|c s IH]; simpl; [done|].
  destruct (JS.isWhiteSpace c); simpl; [done|]. split; discriminate.
Qed.

Lemma trimEnd_empty s : JS.trimEnd s = "" ↔ allWhiteSpace s = true.
Proof.
  induction s as [|c s IH]; simpl; [done|].
  destruct (JS.trimEnd s) eqn:Hs.
  - destruct (JS.isWhiteSpace c); simpl.
    + split; [intros _; by apply IH | done].
    + split; discriminate.
  - split; [discriminate|].
    intros [_ H]%andb_true_iff. apply IH in H. discriminate.
Qed.

Lemma allWhiteSpace_trimStart s : allWhiteSpace (JS.trimStart s) = allWhiteSpace s.
Proof.
  induction s as [|c s IH]; simpl; [done|].
  destruct (JS.isWhiteSpace c) eqn:Hc; simpl; [done|]. by rewrite Hc.
Qed.

(** [!s.trim()] holds exactly for the strings that are empty or white space
    only. *)
Lemma falsy_trim s : JS.falsy (JS.trim s) = allWhiteSpace s.
Proof.
  unfold JS.trim. rewrite <- (allWhiteSpace_trimStart s).
  destruct (JS.trimEnd (JS.trimStart s)) eqn:Ht; simpl.
  - symmetry. by apply trimEnd_empty.
  - destruct (allWhiteSpace (JS.trimStart s)) eqn:Hw; [|done].
    apply trimEnd_empty in Hw. congruence.
Qed.

Lemma trimStart_decompose s :
  ∃ leading,
    s = String.append leading (JS.trimStart s)
    ∧ allWhiteSpace leading = true
    ∧ startsWithWhiteSpace (JS.trimStart s) = false.
Proof.
  induction s as [|c s (leading & Hs & Hl & Hstart)].
  - by exists "".
  - simpl. destruct (JS.isWhiteSpace c) eqn:Hc.
    + exists (String c leading). split; [by rewrite append_String, <- Hs|].
      split; [|done]. simpl. by rewrite Hc.
    + exists "". simpl. by rewrite Hc.
Qed.

Lemma trimEnd_decompose s :
  ∃ trailing,
    s = String.append (JS.trimEnd s) trailing
    ∧ allWhiteSpace trailing = true
    ∧ endsWithWhiteSpace (JS.trimEnd s) = false.
Proof.
  induction s as [|c s (trailing & Hs & Ht & Hend)].
  - by exists "".
  - simpl. destruct (JS.trimEnd s) as [|d t] eqn:Htrim.
    + rewrite append_empty_l in Hs. subst trailing.
      destruct (JS.isWhiteSpace c) eqn:Hc.
      * exists (String c s). simpl. by rewrite Hc, Ht.
      * exists s. simpl. by rewrite Hc.
    + exists trailing. rewrite !append_String in *. by rewrite <- Hs.
Qed.

Lemma trimEnd_starts s :
  startsWithWhiteSpace s = false → startsWithWhiteSpace (JS.trimEnd s) = false.
Proof.
  destruct s as [|c s]; [done|]. simpl. intros Hc.
  destruct (JS.trimEnd s); [by rewrite Hc | done].
Qed.

(** [trim] removes the leading and the trailing white space. *)
Lemma trim_trimmedTo s : trimmedTo s (JS.trim s).
Proof.
  unfold JS.trim.
  destruct (trimStart_decompose s) as (leading & Hs & Hl & Hstart).
  destruct (trimEnd_decompose (JS.trimStart s)) as (trailing & Ht & Htr & Hend).
  exists leading, trailing. rewrite <- Ht. split; [done|]. split; [done|].
  split; [done|]. split; [by apply trimEnd_starts | done].
Qed.

Lemma trimStart_leading leading s :
  allWhiteSpace leading = true →
  JS.trimStart (String.append leading s) = JS.trimStart s.
Proof.
  induction leading as [|c leading IH]; [done|].
  simpl. intros [Hc Hl]%andb_true_iff. rewrite Hc. by apply IH.
Qed.

Lemma trimStart_id s : startsWithWhiteSpace s = false → JS.trimStart s = s.
Proof. destruct s as [|c s]; [done|]. simpl. by intros ->. Qed.

Lemma trimEnd_trailing core trailing :
  allWhiteSpace trailing = true → endsWithWhiteSpace core = false →
  JS.trimEnd (String.append core trailing) = core.
Proof.
  intros Ht. induction core as [|c core IH]; intros Hend.
  - rewrite append_empty_l. by apply trimEnd_empty.
  - rewrite append_String. simpl. destruct core as [|d core].
    + rewrite append_empty_l. rewrite (proj2 (trimEnd_empty trailing) Ht).
      simpl in Hend. by rewrite Hend.
    + rewrite IH by done. done.
Qed.

(** ... and nothing else: the trimmed form of a string is unique. *)
Lemma trimmedTo_trim s core : trimmedTo s core → core = JS.trim s.
Proof.
  intros (leading & trailing & -> & Hl & Ht & Hstart & Hend).
  unfold JS.trim. rewrite trimStart_leading by done.
  destruct core as [|c core].
  - rewrite append_empty_l.
    rewrite (proj2 (trimStart_empty trailing) Ht). done.
  - rewrite trimStart_id.
    + symmetry. by apply trimEnd_trailing.
    + by rewrite append_String.
Qed.

Lemma isUpper_spec c :
  JS.isUpper c = true ↔
  (65 ≤ JS.code c ≤ 90 ∨ 192 ≤ JS.code c ≤ 222 ∧ JS.code c ≠ 215)%N.
Proof.
  unfold JS.isUpper.
  rewrite orb_true_iff, !andb_true_iff, negb_true_iff, !N.leb_le, N.eqb_neq. tauto.
Qed.

Lemma code_inj c d : JS.code c = JS.code d → c = d.
Proof.
  intros H. rewrite <- (ascii_N_embedding c), <- (ascii_N_embedding d).
  unfold JS.code in H. by rewrite H.
Qed.

Lemma code_lowerUnit c :
  JS.code (JS.lowerUnit c) = if JS.isUpper c then (JS.code c + 32)%N else JS.code c.
Proof.
  unfold JS.lowerUnit. destruct (JS.isUpper c) eqn:Hc; [|done].
  apply isUpper_spec in Hc. unfold JS.code at 1. apply N_ascii_embedding. lia.
Qed.

Lemma lowerUnit_eq_iff c d : JS.lowerUnit c = JS.lowerUnit d ↔ sameLetter c d.
Proof.
  unfold sameLetter. split.
  - intros H. apply (f_equal JS.code) in H. rewrite !code_lowerUnit in H.
    destruct (JS.isUpper c) eqn:Hc, (JS.isUpper d) eqn:Hd.
    + left. apply code_inj. lia.
    + right; left. split; [done | lia].
    + right; right. split; [done | lia].
    + left. by apply code_inj.
  - intros H. apply code_inj. rewrite !code_lowerUnit.
    destruct H as [->|[[Hc Hd]|[Hd Hc]]]; [done| |].
    + rewrite Hc. destruct (JS.isUpper d) eqn:Hd'; [|done].
      apply isUpper_spec in Hc, Hd'. lia.
    + rewrite Hd. destruct (JS.isUpper c) eqn:Hc'; [|done].
      apply isUpper_spec in Hd, Hc'. lia.
Qed.

(** Equality of the lower-cased strings is equality up to letter case. *)
Lemma toLowerCase_eq_iff s t :
  JS.toLowerCase s = JS.toLowerCase t ↔ equalIgnoringCase s t.
Proof.
  split.
  - revert t. induction s as [|c s IH]; intros [|d t] H; simpl in H; try done.
    + constructor.
    + injection H as Hc Hs. constructor; [by apply lowerUnit_eq_iff | by apply IH].
  - induction 1 as [|c d s t Hcd _ IH]; simpl; [done|].
    f_equal; [by apply lowerUnit_eq_iff | done].
Qed.

(** ** quizStore.ts: submitting twice (C3) *)

(** C3, as stated, fails for [handleAnswer]: the store's action carries no
    guard, and called again while the feedback for "Hallo" is shown it
    counts a second attempt. *)
Lemma handleAnswer_counts_again_while_answered :
  hasAnswered (get answeredStore) = true
  ∧ attempts (get answeredStore) = 1
  ∧ attempts (get (handleAnswer "2024-01-01T00:00:02.000Z" "2024-01-01T00:00:02.001Z"
                     false hallo answeredStore)) = 2
  ∧ handleAnswer "2024-01-01T00:00:02.000Z" "2024-01-01T00:00:02.001Z"
      false hallo answeredStore ≠ answeredStore.
Proof. repeat split. intros H. apply (f_equal pendingTimeouts) in H. discriminate. Qed.

(** C3, amended. [submitTextAnswer] returns the store unchanged when
    [hasAnswered] holds or when the input is empty or white space only; so
    does the form's submit handler. The click path is guarded in the
    component, not in the store: a click on a choice while [hasAnswered]
    holds (the buttons are disabled) leaves the store unchanged. In each of
    these cases the aggregate counters stay as they are. *)
Theorem double_submit_rejected now nowSession store :
  (hasAnswered (get store) = true ∨ allWhiteSpace (userInput (get store)) = true →
     (∀ correctAnswer currentWord,
        submitTextAnswer now nowSession correctAnswer currentWord store = store)
     ∧ handleTextSubmit now nowSession store = store)
  ∧ (hasAnswered (get store) = true →
     ∀ i, clickChoice now nowSession i store = store).
Proof.
  split.
  - intros H.
    assert (JS.falsy (JS.trim (userInput (get store))) || hasAnswered (get store) = true)
      as Hguard.
    { rewrite falsy_trim. destruct H as [-> | ->]; [apply orb_true_r | done]. }
    assert (∀ correctAnswer currentWord,
              submitTextAnswer now nowSession correctAnswer currentWord store = store)
      as Hsubmit.
    { intros. unfold submitTextAnswer. by rewrite Hguard. }
    split; [done|]. unfold handleTextSubmit.
    by destruct (displayWord (get store)).
  - intros H i. unfold clickChoice. rewrite H, orb_true_r.
    by destruct (displayWord (get store)), (displayChoices (get store) !! i).
Qed.

Lemma double_submit_rejected_witness :
  submitTextAnswer "2024-01-01T00:00:02.000Z" "2024-01-01T00:00:02.001Z" "Hello" hallo
    answeredStore = answeredStore
  ∧ clickChoice "2024-01-01T00:00:02.000Z" "2024-01-01T00:00:02.001Z" 1 answeredStore
    = answeredStore.
Proof.
  destruct (double_submit_rejected "2024-01-01T00:00:02.000Z" "2024-01-01T00:00:02.001Z"
              answeredStore) as [Htext Hclick].
  split.
  - apply Htext. left. reflexivity.
  - apply Hclick. reflexivity.
Defined.

(** ** quizStore.ts: advancing (C6) *)







(** ** quizStore.ts: the verdict on a typed answer (C7) *)

Lemma matchesTerm_iff input term :
  matchesTerm input term ↔ JS.toLowerCase (JS.trim input) = JS.toLowerCase term.
Proof.
  rewrite toLowerCase_eq_iff. split.
  - intros (core & Htrim & Heq). by rewrite <- (trimmedTo_trim _ _ Htrim).
  - intros Heq. exists (JS.trim input). split; [apply trim_trimmedTo | done].
Qed.

(** For a term that carries no white space around it, as vocabulary terms
    do, trimming the term as well changes nothing. *)
Lemma matchesTerm_trimmed_term input term :
  trimmedTo term term →
  matchesTerm input term
  ↔ ∃ core core', trimmedTo input core ∧ trimmedTo term core'
                  ∧ equalIgnoringCase core core'.
Proof.
  intros Hterm. split.
  - intros (core & Hcore & Heq). by exists core, term.
  - intros (core & core' & Hcore & Hcore' & Heq). exists core. split; [done|].
    by rewrite (trimmedTo_trim _ _ Hterm), <- (trimmedTo_trim _ _ Hcore').
Qed.

Lemma trimmedTo_self term :
  startsWithWhiteSpace term = false → endsWithWhiteSpace term = false →
  trimmedTo term term.
Proof.
  intros Hstart Hend. exists "", "".
  by rewrite append_empty_l, append_empty_r.
Qed.

(** C7, as stated, fails: the term is not trimmed. The input "hello" and
    the term " Hello" are equal up to letter case once both are trimmed of
    white space, yet the answer is recorded as wrong. *)
Lemma submitTextAnswer_rejects_untrimmed_term :
  let store := setUserInput "hello" freshStore in
  hasAnswered (get store) = false
  ∧ allWhiteSpace (userInput (get store)) = false
  ∧ matchesBothTrimmed (userInput (get store)) " Hello"
  ∧ lastResult
      (get (submitTextAnswer "2024-01-01T00:00:01.000Z" "2024-01-01T00:00:01.001Z"
              " Hello" hallo store))
    = Some false.
Proof.
  split; [done|]. split; [done|]. split; [|done].
  exists "hello", "Hello". split; [by exists "", ""|]. split; [by exists " ", ""|].
  constructor; [right; right; by split|].
  repeat (constructor; [by left|]). constructor.
Qed.

(** C7, amended. When the question is open and the input is not empty or
    white space only, [submitTextAnswer] records a verdict, and the verdict
    is "correct" exactly when the input, without its leading and trailing
    white space, equals the term as it is given up to letter case. The term
    is not trimmed: for a term without white space at its start and its end
    this is the match of input and term, both trimmed, up to letter case.
    The input "hello" is accepted for the term "Hello", and so is "GOODbye"
    between tabs, blanks and a line feed for "Goodbye"; white space inside
    the input is kept, so "Good bye" is not accepted for "Goodbye". *)
Theorem submitTextAnswer_verdict now nowSession :
  (∀ correctAnswer currentWord store,
     hasAnswered (get store) = false →
     allWhiteSpace (userInput (get store)) = false →
     let state' := get (submitTextAnswer now nowSession correctAnswer currentWord store) in
     hasAnswered state' = true
     ∧ ∃ verdict,
         lastResult state' = Some verdict
         ∧ (verdict = true ↔ matchesTerm (userInput (get store)) correctAnswer)
         ∧ (startsWithWhiteSpace correctAnswer = false →
            endsWithWhiteSpace correctAnswer = false →
            (verdict = true ↔ matchesBothTrimmed (userInput (get store)) correctAnswer))
         ∧ correct state' = correct (get store) + (if verdict then 1 else 0))
  ∧ lastResult
      (get (submitTextAnswer now nowSession "Hello" hallo
              (setUserInput "hello" freshStore)))
    = Some true
  ∧ lastResult
      (get (submitTextAnswer now nowSession "Goodbye" tschuess
              (setUserInput
                 (String "009"%char (String.append "  GOODbye " (String "010"%char "")))
                 freshStore)))
    = Some true
  ∧ lastResult
      (get (submitTextAnswer now nowSession "Goodbye" tschuess
              (setUserInput "Good bye" freshStore)))
    = Some false.
Proof.
  split; [|done].
  intros correctAnswer currentWord store Hopen Hinput state'.
  subst state'. unfold submitTextAnswer.
  rewrite falsy_trim, Hinput, Hopen. simpl.
  split; [done|]. eexists. split; [done|].
  assert (bool_decide
            (JS.toLowerCase (JS.trim (userInput (get store)))
             = JS.toLowerCase correctAnswer) = true
          ↔ matchesTerm (userInput (get store)) correctAnswer) as Hverdict.
  { rewrite bool_decide_eq_true. symmetry. apply matchesTerm_iff. }
  split; [done|]. split; [|done].
  intros Hstart Hend. rewrite Hverdict.
  apply matchesTerm_trimmed_term. by apply trimmedTo_self.
Qed.

Lemma submitTextAnswer_verdict_witness :
  lastResult
    (get (submitTextAnswer "2024-01-01T00:00:01.000Z" "2024-01-01T00:00:01.001Z"
            "Goodbye" tschuess (setUserInput "  GOODbye " freshStore)))
  = Some true.
Proof.
  destruct (submitTextAnswer_verdict "2024-01-01T00:00:01.000Z" "2024-01-01T00:00:01.001Z")
    as [H _].
  destruct (H "Goodbye" tschuess (setUserInput "  GOODbye " freshStore))
    as (_ & verdict & Hv & Hiff & _).
  - reflexivity.
  - reflexivity.
  - rewrite Hv. f_equal. apply Hiff.
    exists "GOODbye". split; [by exists "  ", " "|].
    constructor; [by left|].
    do 3 (constructor; [right; left; by split|]).
    repeat (constructor; [by left|]). constructor.
Defined.

(** ** quizStore.ts and storage.ts: counting an answer (C8) *)

Lemma updateWordStats_lookup now stats wordId isCorrect :
  orEmpty (Stats.wordStats (updateWordStats now stats wordId isCorrect)) !! wordId
  = Some
      (match orEmpty (Stats.wordStats stats) !! wordId with
       | Some ws =>
           WordStats.mk (JS.add (WordStats.attempts ws) 1)
             (JS.add (WordStats.correct ws) (if isCorrect then 1 else 0)) now
       | None =>
           if JS.inheritedName wordId then WordStats.mk JS.NaN JS.NaN now
           else WordStats.mk 1 (if isCorrect then 1 else 0) now
       end).
Proof.
  unfold updateWordStats, getMember. simpl. rewrite lookup_insert_eq.
  destruct (orEmpty (Stats.wordStats stats) !! wordId); simpl; [done|].
  destruct (JS.inheritedName wordId); simpl; [done|]. by destruct isCorrect.
Qed.

Lemma updateWordStats_lookup_ne now stats wordId isCorrect other :
  other ≠ wordId →
  orEmpty (Stats.wordStats (updateWordStats now stats wordId isCorrect)) !! other
  = orEmpty (Stats.wordStats stats) !! other.
Proof. intros Hne. unfold updateWordStats. simpl. by rewrite lookup_insert_ne. Qed.

(** C8, on the code. The word id "constructor" is the name of a member of
    [Object.prototype]. The first answer on a word with that id finds that
    member where it looks for the word's entry, and stores an entry whose
    attempts and correct answers are [NaN], while the aggregate counters go
    to 1: the entry does not show attempts = 1 and correct = 1. The entry
    stays at [NaN] with every further answer, and after a wrong answer the
    word is not among the failed words. *)
Theorem handleAnswer_inherited_id_NaN now nowSession later laterSession :
  let first := handleAnswer now nowSession true konstruktor freshStore in
  let second := handleAnswer later laterSession true konstruktor first in
  let wrong := handleAnswer now nowSession false konstruktor freshStore in
  VocabItem.id konstruktor = "constructor"
  ∧ orEmpty (Stats.wordStats (stats (get freshStore))) !! "constructor" = None
  ∧ attempts (get first) = 1
  ∧ correct (get first) = 1
  ∧ orEmpty (Stats.wordStats (stats (get first))) !! "constructor"
    = Some (WordStats.mk JS.NaN JS.NaN now)
  ∧ orEmpty (Stats.wordStats (stats (get first))) !! "constructor"
    ≠ Some (WordStats.mk 1 1 now)
  ∧ attempts (get second) = 2
  ∧ orEmpty (Stats.wordStats (stats (get second))) !! "constructor"
    = Some (WordStats.mk JS.NaN JS.NaN later)
  ∧ attempts (get wrong) = 1
  ∧ correct (get wrong) = 0
  ∧ getFailedWordIds (stats (get wrong)) = [].
Proof.
  intros first second wrong. subst first second wrong.
  assert (orEmpty (Stats.wordStats
                     (updateWordStats now (zeroStats "2024-01-01T00:00:00.000Z")
                        "constructor" true)) !! "constructor"
          = Some (WordStats.mk JS.NaN JS.NaN now)) as Hfirst.
  { by rewrite updateWordStats_lookup. }
  split; [done|]. split; [done|]. split; [done|]. split; [done|].
  split; [exact Hfirst|].
  split.
  { intros H.
    assert (Some (WordStats.mk JS.NaN JS.NaN now) = Some (WordStats.mk 1 1 now)) as Heq
      by (rewrite <- Hfirst; exact H).
    discriminate Heq. }
  split; [done|]. split.
  { change (orEmpty
              (Stats.wordStats
                 (updateWordStats later
                    (stats (get (handleAnswer now nowSession true konstruktor freshStore)))
                    "constructor" true)) !! "constructor"
            = Some (WordStats.mk JS.NaN JS.NaN later)).
    rewrite updateWordStats_lookup.
    change (stats (get (handleAnswer now nowSession true konstruktor freshStore)))
      with (Stats.mk 1 1 nowSession
              (Stats.wordStats
                 (updateWordStats now (zeroStats "2024-01-01T00:00:00.000Z")
                    "constructor" true))).
    cbn [Stats.wordStats]. by rewrite Hfirst. }
  split; [done|]. split; [done|].
  apply List_filter_none. intros wordId Hin.
  apply elem_of_keys in Hin as [ws Hws].
  destruct (decide (wordId = "constructor")) as [->|Hne].
  - change (orEmpty
              (Stats.wordStats
                 (updateWordStats now (zeroStats "2024-01-01T00:00:00.000Z")
                    "constructor" false)) !! "constructor" = Some ws) in Hws.
    rewrite updateWordStats_lookup in Hws.
    change (orEmpty
              (Stats.wordStats
                 (updateWordStats now (zeroStats "2024-01-01T00:00:00.000Z")
                    "constructor" false)) !! "constructor")
      with (Some (WordStats.mk JS.NaN JS.NaN now)).
    done.
  - change (orEmpty
              (Stats.wordStats
                 (updateWordStats now (zeroStats "2024-01-01T00:00:00.000Z")
                    "constructor" false)) !! wordId = Some ws) in Hws.
    by rewrite updateWordStats_lookup_ne in Hws.
Qed.

(** ** storage.ts: what updateWordStats leaves alone (C10) *)

Lemma alloc_inv (h h' : Heap.heap) c l :
  Heap.alloc h c = (h', l) →
  h !! l = None ∧ h' !! l = Some c ∧ h ⊆ h'.
Proof.
  unfold Heap.alloc. intros [= <- <-].
  assert (h !! fresh (dom h) = None) as Hfresh.
  { apply not_elem_of_dom, is_fresh. }
  split; [done|]. split; [apply lookup_insert_eq|]. by apply insert_subseteq.
Qed.

Lemma holdsWordStats_weaken (h h' : Heap.heap) entries m :
  h ⊆ h' → Heap.holdsWordStats h entries m → Heap.holdsWordStats h' entries m.
Proof.
  intros Hsub H wordId. specialize (H wordId).
  destruct (entries !! wordId), (m !! wordId); try done.
  by eapply lookup_weaken.
Qed.

Lemma holdsStats_weaken (h h' : Heap.heap) l stats :
  h ⊆ h' → Heap.holdsStats h l stats → Heap.holdsStats h' l stats.
Proof.
  intros Hsub (ref & Hl & Hws). exists ref. split; [by eapply lookup_weaken|].
  destruct ref as [d|], (Stats.wordStats stats) as [m|]; try done.
  destruct Hws as (entries & Hd & Hentries). exists entries.
  split; [by eapply lookup_weaken | by eapply holdsWordStats_weaken].
Qed.

Lemma holdsWordStats_insert (h : Heap.heap) entries m wordId e ws :
  h !! e = Some (Heap.WordStatsCell ws) →
  Heap.holdsWordStats h entries m →
  Heap.holdsWordStats h (<[wordId := e]> entries) (<[wordId := ws]> m).
Proof.
  intros He H k. destruct (decide (k = wordId)) as [->|Hne].
  - by rewrite !lookup_insert_eq.
  - rewrite !lookup_insert_ne by done. apply H.
Qed.

(** From a heap in which the dictionary [d] reads as [m], the rest of
    [updateWordStats] allocates the new entry, the new dictionary and the
    new record and touches nothing else. *)
Lemma updateWordStats_heap_dict now (h0 h : Heap.heap) stats d entries m
    wordId (isCorrect : bool) correct attempts lastSessionDate :
  h0 ⊆ h →
  h !! d = Some (Heap.DictCell entries) →
  Heap.holdsWordStats h entries m →
  m = orEmpty (Stats.wordStats stats) →
  correct = Stats.correct stats → attempts = Stats.attempts stats →
  lastSessionDate = Stats.lastSessionDate stats →
  ∃ h' l',
    (let '(h2, currentWordStats) :=
       match entries !! wordId with
       | Some e => (h, Heap.Object e)
       | None =>
           if JS.inheritedName wordId then (h, Heap.Builtin)
           else
             let '(h2, l) := Heap.alloc h (Heap.WordStatsCell (WordStats.mk 0 0 now)) in
             (h2, Heap.Object l)
       end in
     match Heap.readMember h2 currentWordStats with
     | Some current =>
         let '(h3, entry) :=
           Heap.alloc h2
             (Heap.WordStatsCell
                (WordStats.mk
                   (JS.add (JS.toNumber (memberAttempts current)) 1)
                   (JS.add (JS.toNumber (memberCorrect current))
                      (if isCorrect then 1 else 0))
                   now)) in
         let '(h4, newWordStats) :=
           Heap.alloc h3 (Heap.DictCell (<[wordId := entry]> entries)) in
         Some (Heap.alloc h4
                 (Heap.StatsCell correct attempts lastSessionDate (Some newWordStats)))
     | None => None
     end) = Some (h', l')
    ∧ h0 ⊆ h'
    ∧ h !! l' = None
    ∧ Heap.holdsStats h' l' (updateWordStats now stats wordId isCorrect).
Proof.
  intros Hsub0 Hd Hentries -> -> -> ->.
  set (current := default (OwnEntry (WordStats.mk 0 0 now))
                    (getMember (orEmpty (Stats.wordStats stats)) wordId)).
  set (new := WordStats.mk (JS.add (JS.toNumber (memberAttempts current)) 1)
                (JS.add (JS.toNumber (memberCorrect current))
                   (if isCorrect then 1 else 0)) now).
  assert (∃ h2 c, match entries !! wordId with
                  | Some e => (h, Heap.Object e)
                  | None =>
                      if JS.inheritedName wordId then (h, Heap.Builtin)
                      else
                        let '(h2, l) :=
                          Heap.alloc h (Heap.WordStatsCell (WordStats.mk 0 0 now)) in
                        (h2, Heap.Object l)
                  end = (h2, c)
                  ∧ h ⊆ h2 ∧ Heap.readMember h2 c = Some current)
    as (h2 & c & -> & Hsub2 & Hc).
  { pose proof (Hentries wordId) as Hw. subst current. unfold getMember.
    destruct (entries !! wordId) as [e|] eqn:He,
             (orEmpty (Stats.wordStats stats) !! wordId) as [ws|] eqn:Hm; try done.
    - exists h, (Heap.Object e). simpl. by rewrite Hw.
    - destruct (JS.inheritedName wordId).
      + by exists h, Heap.Builtin.
      + destruct (Heap.alloc h (Heap.WordStatsCell (WordStats.mk 0 0 now)))
          as [h2 c] eqn:Ha.
        apply alloc_inv in Ha as (_ & Hc & ?).
        exists h2, (Heap.Object c). simpl. by rewrite Hc. }
  rewrite Hc.
  destruct (Heap.alloc h2 (Heap.WordStatsCell new)) as [h3 entry] eqn:H3.
  fold new. rewrite H3.
  destruct (Heap.alloc h3 (Heap.DictCell (<[wordId := entry]> entries)))
    as [h4 newWordStats] eqn:H4.
  destruct (Heap.alloc h4
              (Heap.StatsCell (Stats.correct stats) (Stats.attempts stats)
                 (Stats.lastSessionDate stats) (Some newWordStats)))
    as [h5 l'] eqn:H5.
  apply alloc_inv in H3 as (Hf3 & Hl3 & Hsub3).
  apply alloc_inv in H4 as (Hf4 & Hl4 & Hsub4).
  apply alloc_inv in H5 as (Hf5 & Hl5 & Hsub5).
  assert (h ⊆ h4) as Hsub' by (do 2 (etrans; [eassumption|]); done).
  assert (h ⊆ h5) as Hsub by by etrans.
  exists h5, l'. split; [done|]. split; [by etrans|]. split.
  - destruct (h !! l') eqn:Hl'; [|done].
    apply (lookup_weaken _ h4) in Hl'; [congruence | done].
  - exists (Some newWordStats). split; [done|]. simpl.
    exists (<[wordId := entry]> entries). split.
    + by eapply lookup_weaken.
    + apply holdsWordStats_insert.
      * eapply lookup_weaken; [exact Hl3|]. by etrans.
      * by eapply holdsWordStats_weaken.
Qed.

Lemma updateWordStats_heap now (h : Heap.heap) l stats wordId isCorrect :
  Heap.holdsStats h l stats →
  ∃ h' l',
    Heap.updateWordStats now h l wordId isCorrect = Some (h', l')
    ∧ h ⊆ h'
    ∧ h !! l' = None
    ∧ Heap.holdsStats h' l' (updateWordStats now stats wordId isCorrect).
Proof.
  intros (ref & Hl & Hws). unfold Heap.updateWordStats. rewrite Hl.
  destruct ref as [d|], (Stats.wordStats stats) as [m|] eqn:Hm; try done.
  - destruct Hws as (entries & Hd & Hentries). rewrite Hd.
    eapply updateWordStats_heap_dict; try done. by rewrite Hm.
  - destruct (Heap.alloc h (Heap.DictCell ∅)) as [h1 d] eqn:H1.
    apply alloc_inv in H1 as (Hf1 & Hl1 & Hsub1). rewrite Hl1.
    assert (Heap.holdsWordStats h1 ∅ ∅) as Hempty.
    { intros k. by rewrite !lookup_empty. }
    assert (∅ = orEmpty (Stats.wordStats stats)) as Hnone by by rewrite Hm.
    destruct (updateWordStats_heap_dict now h h1 stats d ∅ ∅ wordId isCorrect
                (Stats.correct stats) (Stats.attempts stats)
                (Stats.lastSessionDate stats) Hsub1 Hl1 Hempty Hnone
                eq_refl eq_refl eq_refl)
      as (h' & l' & Hrun & Hsub & Hfresh & Hholds).
    exists h', l'. split; [done|]. split; [done|]. split; [|done].
    by eapply lookup_weaken_None.
Qed.

(** C10. The record returned by [updateWordStats] has the [correct],
    [attempts] and [lastSessionDate] of its argument and the same per-word
    entry for every word id other than [wordId]. On the heap, the call
    succeeds, returns a record at a location that was not in use, and every
    object that was in the heap before the call, the argument record, its
    dictionary and its entries, is there afterwards with the same content:
    the argument still reads as before. *)
Theorem updateWordStats_frame now stats wordId isCorrect :
  let stats' := updateWordStats now stats wordId isCorrect in
  Stats.correct stats' = Stats.correct stats
  ∧ Stats.attempts stats' = Stats.attempts stats
  ∧ Stats.lastSessionDate stats' = Stats.lastSessionDate stats
  ∧ (∀ other, other ≠ wordId →
       orEmpty (Stats.wordStats stats') !! other
       = orEmpty (Stats.wordStats stats) !! other)
  ∧ (∀ (h : Heap.heap) l,
       Heap.holdsStats h l stats →
       ∃ h' l',
         Heap.updateWordStats now h l wordId isCorrect = Some (h', l')
         ∧ (∀ k c, h !! k = Some c → h' !! k = Some c)
         ∧ h !! l' = None
         ∧ Heap.holdsStats h' l stats
         ∧ Heap.holdsStats h' l' stats').
Proof.
  intros stats'. split; [done|]. split; [done|]. split; [done|]. split.
  - intros other Hne. by apply updateWordStats_lookup_ne.
  - intros h l Hholds.
    destruct (updateWordStats_heap now h l stats wordId isCorrect Hholds)
      as (h' & l' & Hrun & Hsub & Hfresh & Hnew).
    exists h', l'. split; [done|]. split; [|split; [done|split; [|done]]].
    + intros k c Hk. by eapply lookup_weaken.
    + by eapply holdsStats_weaken.
Qed.

Lemma sampleHeap_holds : Heap.holdsStats Heap.sampleHeap 1%positive Heap.sampleStats.
Proof.
  exists (Some 2%positive). split; [reflexivity|]. simpl.
  exists {[ "1" := 3%positive ]}. split; [reflexivity|].
  intros k. destruct (decide (k = "1")) as [->|Hne].
  - reflexivity.
  - by rewrite !lookup_singleton_ne.
Defined.

Lemma updateWordStats_frame_witness :
  ∃ h' l',
    Heap.updateWordStats "2024-01-01T00:00:09.000Z" Heap.sampleHeap 1%positive "1" true
    = Some (h', l')
    ∧ Heap.sampleHeap !! l' = None
    ∧ Heap.holdsStats h' 1%positive Heap.sampleStats
    ∧ Heap.holdsStats h' l'
        (updateWordStats "2024-01-01T00:00:09.000Z" Heap.sampleStats "1" true).
Proof.
  destruct (updateWordStats_frame "2024-01-01T00:00:09.000Z" Heap.sampleStats "1" true)
    as (_ & _ & _ & _ & H).
  destruct (H Heap.sampleHeap 1%positive sampleHeap_holds)
    as (h' & l' & Hrun & _ & Hfresh & Hold & Hnew).
  by exists h', l'.
Defined.

(** ** JSON: [parse] reads back what [stringify] writes *)

Lemma parseStringBody_escapeUnit c k :
  JSON.parseStringBody (JSON.escapeUnit c k)
  = match JSON.parseStringBody k with
    | Some (t, r') => Some (String c t, r')
    | None => None
    end.
Proof. destruct c as [[] [] [] [] [] [] [] []]; reflexivity. Qed.

Lemma parseStringBody_escapeInto s rest :
  JSON.parseStringBody (JSON.escapeInto s (String JSON.dquote rest)) = Some (s, rest).
Proof.
  induction s as [|c s IH]; simpl; [done|].
  by rewrite parseStringBody_escapeUnit, IH.
Qed.

Lemma spanNumber_append tok rest :
  JSON.allNumberUnits tok = true → JSON.startsNumber rest = false →
  JSON.spanNumber (String.append tok rest) = (tok, rest).
Proof.
  intros Htok Hrest. induction tok as [|c tok IH].
  - rewrite append_empty_l. destruct rest as [|c r]; [done|].
    cbn [JSON.startsNumber] in Hrest.
    cbn [JSON.spanNumber]. by rewrite Hrest.
  - cbn [JSON.allNumberUnits] in Htok. apply andb_true_iff in Htok as [Hc Htok].
    rewrite append_String. cbn [JSON.spanNumber]. by rewrite Hc, IH.
Qed.

Lemma allNumberUnits_uint d : JSON.allNumberUnits (NilEmpty.string_of_uint d) = true.
Proof. induction d; simpl; done. Qed.

Lemma allNumberUnits_printNumber n : JSON.allNumberUnits (JSON.printNumber n) = true.
Proof.
  unfold JSON.printNumber.
  assert (∀ d, JSON.allNumberUnits (NilZero.string_of_uint d) = true) as Hd.
  { intros d. destruct d; try apply allNumberUnits_uint. done. }
  destruct n; simpl; [done| apply Hd | apply Hd].
Qed.

Lemma int_of_string_printNumber n :
  NilZero.int_of_string (JSON.printNumber n) = Some (Z.to_int n).
Proof.
  unfold JSON.printNumber. apply NilZero.isi.
  - destruct n; simpl; try done. intros [= H].
    by apply DecimalPos.Unsigned.to_uint_nonnil in H.
  - destruct n; simpl; try done. intros [= H].
    by apply DecimalPos.Unsigned.to_uint_nonnil in H.
Qed.

Lemma parseNumber_printNumber n rest :
  JSON.startsNumber rest = false →
  JSON.parseNumber (String.append (JSON.printNumber n) rest) = Some (n, rest).
Proof.
  intros Hrest. unfold JSON.parseNumber.
  rewrite spanNumber_append by (done || apply allNumberUnits_printNumber).
  rewrite int_of_string_printNumber, DecimalZ.of_to.
  by rewrite String.eqb_refl.
Qed.

Lemma printNumber_head n :
  ∃ c t, JSON.printNumber n = String c t ∧ JSON.isNumberUnit c = true.
Proof.
  pose proof (allNumberUnits_printNumber n) as Hall.
  pose proof (int_of_string_printNumber n) as Hparse.
  destruct (JSON.printNumber n) as [|c t]; [done|].
  exists c, t. split; [done|].
  cbn [JSON.allNumberUnits] in Hall. by apply andb_true_iff in Hall as [? _].
Qed.

Lemma emit_array x l rest :
  JSON.emit (JSON.JArray (x :: l)) rest = String "[" (JSON.emitElements rest (x :: l)).
Proof. reflexivity. Qed.

Lemma emit_object kx l rest :
  JSON.emit (JSON.JObject (kx :: l)) rest = String "{" (JSON.emitMembers rest (kx :: l)).
Proof. reflexivity. Qed.

Lemma isNumberUnit_not_structural c :
  JSON.isNumberUnit c = true →
  Ascii.eqb c "n" = false ∧ Ascii.eqb c "t" = false ∧ Ascii.eqb c "f" = false
  ∧ Ascii.eqb c JSON.dquote = false ∧ Ascii.eqb c "[" = false
  ∧ Ascii.eqb c "{" = false ∧ Ascii.eqb c "]" = false ∧ Ascii.eqb c "}" = false.
Proof.
  destruct c as [[] [] [] [] [] [] [] []]; intros H; cbv in H; try discriminate H;
    repeat split; reflexivity.
Qed.

(** The first unit of a value's text is never a closing bracket. *)
Lemma emit_head v rest :
  ∃ c t, JSON.emit v rest = String c t
         ∧ Ascii.eqb c "]" = false ∧ Ascii.eqb c "}" = false.
Proof.
  destruct v as [|[]|n|s|[|x l]|[|kx l]]; try (by eexists _, _).
  destruct (printNumber_head n) as (c & t & Heq & Hc).
  exists c, (String.append t rest). cbn [JSON.emit]. rewrite Heq, append_String.
  apply isNumberUnit_not_structural in Hc. tauto.
Qed.

Lemma emitElements_one x rest :
  JSON.emitElements rest [x] = JSON.emit x (String "]" rest).
Proof. reflexivity. Qed.

Lemma emitElements_more x y l rest :
  JSON.emitElements rest (x :: y :: l)
  = JSON.emit x (String "," (JSON.emitElements rest (y :: l))).
Proof. reflexivity. Qed.

Lemma emitMembers_one k x rest :
  JSON.emitMembers rest [(k, x)]
  = JSON.emitString k (String ":" (JSON.emit x (String "}" rest))).
Proof. reflexivity. Qed.

Lemma emitMembers_more k x ky l rest :
  JSON.emitMembers rest ((k, x) :: ky :: l)
  = JSON.emitString k
      (String ":" (JSON.emit x (String "," (JSON.emitMembers rest (ky :: l))))).
Proof. reflexivity. Qed.

Lemma parseValue_string fuel s rest :
  JSON.parseValue (S fuel) (JSON.emitString s rest) = Some (JSON.JString s, rest).
Proof.
  unfold JSON.emitString. cbn [JSON.parseValue].
  change (Ascii.eqb JSON.dquote "n") with false.
  change (Ascii.eqb JSON.dquote "t") with false.
  change (Ascii.eqb JSON.dquote "f") with false.
  change (Ascii.eqb JSON.dquote JSON.dquote) with true.
  cbv iota. by rewrite parseStringBody_escapeInto.
Qed.

Lemma parseValue_number fuel n rest :
  JSON.startsNumber rest = false →
  JSON.parseValue (S fuel) (String.append (JSON.printNumber n) rest)
  = Some (JSON.JNumber n, rest).
Proof.
  intros Hrest. destruct (printNumber_head n) as (c & t & Heq & Hc).
  pose proof (parseNumber_printNumber n rest Hrest) as Hnum.
  rewrite Heq, append_String in *. cbn [JSON.parseValue].
  apply isNumberUnit_not_structural in Hc
    as (-> & -> & -> & -> & -> & -> & _ & _).
  by rewrite Hnum.
Qed.

Lemma emitElements_head x l rest :
  ∃ c t, JSON.emitElements rest (x :: l) = String c t ∧ Ascii.eqb c "]" = false.
Proof.
  destruct l as [|y l].
  - rewrite emitElements_one.
    destruct (emit_head x (String "]" rest)) as (c & t & Hx & Hc & _). by exists c, t.
  - rewrite emitElements_more.
    destruct (emit_head x (String "," (JSON.emitElements rest (y :: l))))
      as (c & t & Hx & Hc & _).
    by exists c, t.
Qed.

Lemma emitMembers_head k x l rest :
  ∃ t, JSON.emitMembers rest ((k, x) :: l) = String JSON.dquote t.
Proof. destruct l as [|[k' y] l]; by eexists. Qed.

Lemma size_array l : JSON.size (JSON.JArray l) = S (JSON.sizeElements l).
Proof. reflexivity. Qed.

Lemma size_object l : JSON.size (JSON.JObject l) = S (JSON.sizeMembers l).
Proof. reflexivity. Qed.

Lemma sizeElements_cons x l :
  JSON.sizeElements (x :: l) = S (JSON.size x + JSON.sizeElements l).
Proof. reflexivity. Qed.

Lemma sizeMembers_cons k x l :
  JSON.sizeMembers ((k, x) :: l) = S (JSON.size x + JSON.sizeMembers l).
Proof. reflexivity. Qed.

(** Reading back with enough fuel: values, the elements of an array and
    the members of an object. *)
Lemma parse_emit_fuel fuel :
  (∀ v rest, (JSON.size v ≤ fuel)%nat → JSON.startsNumber rest = false →
     JSON.parseValue fuel (JSON.emit v rest) = Some (v, rest))
  ∧ (∀ l rest, l ≠ [] → (JSON.sizeElements l ≤ fuel)%nat →
       JSON.parseElements fuel (JSON.emitElements rest l) = Some (l, rest))
  ∧ (∀ l rest, l ≠ [] → (JSON.sizeMembers l ≤ fuel)%nat →
       JSON.parseMembers fuel (JSON.emitMembers rest l) = Some (l, rest)).
Proof.
  induction fuel as [|fuel (IHv & IHe & IHm)].
  { split; [|split].
    - intros v rest Hsize. destruct v; simpl in Hsize; lia.
    - intros [|x l] rest Hne Hsize; [done|]. rewrite sizeElements_cons in Hsize. lia.
    - intros [|[k x] l] rest Hne Hsize; [done|].
      rewrite sizeMembers_cons in Hsize. lia. }
  split; [|split].
  - intros v rest Hsize Hrest.
    destruct v as [|[]|n|s|[|x l]|[|[k x] l]]; try reflexivity.
    + by apply parseValue_number.
    + apply parseValue_string.
    + rewrite size_array in Hsize.
      rewrite emit_array. cbn [JSON.parseValue].
      change (Ascii.eqb "[" "n") with false. change (Ascii.eqb "[" "t") with false.
      change (Ascii.eqb "[" "f") with false.
      change (Ascii.eqb "[" JSON.dquote) with false.
      change (Ascii.eqb "[" "[") with true. cbv iota.
      assert (JSON.parseElements fuel (JSON.emitElements rest (x :: l))
              = Some (x :: l, rest)) as Hl by (apply IHe; [done | lia]).
      destruct (emitElements_head x l rest) as (c2 & r2 & Hemit & Hc2).
      rewrite Hemit in *. cbv iota. rewrite Hc2. by rewrite Hl.
    + rewrite size_object in Hsize.
      rewrite emit_object. cbn [JSON.parseValue].
      change (Ascii.eqb "{" "n") with false. change (Ascii.eqb "{" "t") with false.
      change (Ascii.eqb "{" "f") with false.
      change (Ascii.eqb "{" JSON.dquote) with false.
      change (Ascii.eqb "{" "[") with false.
      change (Ascii.eqb "{" "{") with true. cbv iota.
      assert (JSON.parseMembers fuel (JSON.emitMembers rest ((k, x) :: l))
              = Some ((k, x) :: l, rest)) as Hl by (apply IHm; [done | lia]).
      destruct (emitMembers_head k x l rest) as (r2 & Hemit).
      rewrite Hemit in *. change (Ascii.eqb JSON.dquote "}") with false.
      cbv iota. by rewrite Hl.
  - intros [|x l] rest Hne Hsize; [done|].
    rewrite sizeElements_cons in Hsize.
    cbn [JSON.parseElements]. destruct l as [|y l].
    + rewrite emitElements_one, IHv by (done || lia). reflexivity.
    + rewrite emitElements_more, IHv by (done || lia).
      change (Ascii.eqb "," ",") with true. cbv iota.
      rewrite IHe; [done | done | lia].
  - intros [|[k x] l] rest Hne Hsize; [done|].
    rewrite sizeMembers_cons in Hsize.
    destruct l as [|ky l].
    + rewrite emitMembers_one. unfold JSON.emitString at 1.
      cbn [JSON.parseMembers]. change (Ascii.eqb JSON.dquote JSON.dquote) with true.
      cbv iota. rewrite parseStringBody_escapeInto.
      change (Ascii.eqb ":" ":") with true. cbv iota.
      rewrite IHv by (done || lia). reflexivity.
    + rewrite emitMembers_more. unfold JSON.emitString at 1.
      cbn [JSON.parseMembers]. change (Ascii.eqb JSON.dquote JSON.dquote) with true.
      cbv iota. rewrite parseStringBody_escapeInto.
      change (Ascii.eqb ":" ":") with true. cbv iota.
      rewrite IHv by (done || lia).
      change (Ascii.eqb "," ",") with true. cbv iota.
      rewrite IHm; [done | done | lia].
Qed.

Lemma length_append s t :
  String.length (String.append s t) = (String.length s + String.length t)%nat.
Proof. induction s as [|c s IH]; [done|]. rewrite append_String. simpl. by rewrite IH. Qed.

Lemma length_escapeUnit c k :
  (S (String.length k) ≤ String.length (JSON.escapeUnit c k))%nat.
Proof.
  destruct c as [[] [] [] [] [] [] [] []];
    cbv -[String.length]; cbn [String.length]; lia.
Qed.

Lemma length_escapeInto s rest :
  (String.length rest ≤ String.length (JSON.escapeInto s rest))%nat.
Proof.
  induction s as [|c s IH]; simpl; [done|].
  pose proof (length_escapeUnit c (JSON.escapeInto s rest)). lia.
Qed.

Lemma length_emitString s rest :
  (2 + String.length rest ≤ String.length (JSON.emitString s rest))%nat.
Proof.
  unfold JSON.emitString. cbn [String.length].
  pose proof (length_escapeInto s (String JSON.dquote rest)) as H.
  cbn [String.length] in H. lia.
Qed.

(** The text of a value is at least as long as the value is large. *)
Lemma size_le_length n :
  (∀ v rest, (JSON.size v ≤ n)%nat →
     (JSON.size v + String.length rest ≤ String.length (JSON.emit v rest))%nat)
  ∧ (∀ l rest, l ≠ [] → (JSON.sizeElements l ≤ n)%nat →
       (JSON.sizeElements l + String.length rest
        ≤ String.length (JSON.emitElements rest l))%nat)
  ∧ (∀ l rest, l ≠ [] → (JSON.sizeMembers l ≤ n)%nat →
       (JSON.sizeMembers l + String.length rest
        ≤ String.length (JSON.emitMembers rest l))%nat).
Proof.
  induction n as [|n (IHv & IHe & IHm)].
  { split; [|split].
    - intros v rest Hsize. destruct v; simpl in Hsize; lia.
    - intros [|x l] rest Hne Hsize; [done|]. rewrite sizeElements_cons in Hsize. lia.
    - intros [|[k x] l] rest Hne Hsize; [done|].
      rewrite sizeMembers_cons in Hsize. lia. }
  split; [|split].
  - intros v rest Hsize.
    destruct v as [|[]|z|s|[|x l]|[|[k x] l]].
    1-3, 6, 8:
      change (JSON.size _) with 1%nat; cbn [JSON.emit]; rewrite length_append;
      cbn [String.length]; lia.
    + change (JSON.size _) with 1%nat. cbn [JSON.emit]. rewrite length_append.
      destruct (printNumber_head z) as (c & t & -> & _). cbn [String.length]. lia.
    + change (JSON.size _) with 1%nat. cbn [JSON.emit].
      pose proof (length_emitString s rest). lia.
    + rewrite size_array in *. rewrite emit_array. cbn [String.length].
      specialize (IHe (x :: l) rest ltac:(done)). lia.
    + rewrite size_object in *. rewrite emit_object. cbn [String.length].
      specialize (IHm ((k, x) :: l) rest ltac:(done)). lia.
  - intros [|x l] rest Hne Hsize; [done|].
    rewrite sizeElements_cons in *. destruct l as [|y l].
    + rewrite emitElements_one.
      specialize (IHv x (String "]" rest)). cbn [String.length] in IHv.
      change (JSON.sizeElements []) with 0%nat. lia.
    + rewrite emitElements_more.
      specialize (IHv x (String "," (JSON.emitElements rest (y :: l)))).
      specialize (IHe (y :: l) rest ltac:(done)). cbn [String.length] in IHv. lia.
  - intros [|[k x] l] rest Hne Hsize; [done|].
    rewrite sizeMembers_cons in *. destruct l as [|ky l].
    + rewrite emitMembers_one.
      pose proof (length_emitString k (String ":" (JSON.emit x (String "}" rest)))) as Hk.
      specialize (IHv x (String "}" rest)). cbn [String.length] in *.
      change (JSON.sizeMembers []) with 0%nat. lia.
    + rewrite emitMembers_more.
      pose proof (length_emitString k
                    (String ":" (JSON.emit x
                       (String "," (JSON.emitMembers rest (ky :: l)))))) as Hk.
      specialize (IHv x (String "," (JSON.emitMembers rest (ky :: l)))).
      specialize (IHm (ky :: l) rest ltac:(done)). cbn [String.length] in *. lia.
Qed.

(** [JSON.parse(JSON.stringify(v))] is [v]. *)
Lemma parse_stringify v : JSON.parse (JSON.stringify v) = Some v.
Proof.
  unfold JSON.parse, JSON.stringify.
  destruct (size_le_length (JSON.size v)) as [Hlen _].
  specialize (Hlen v "" (le_n _)).
  destruct (parse_emit_fuel (S (String.length (JSON.emit v "")))) as [Hparse _].
  rewrite Hparse; [done | lia | done].
Qed.


(** ** storage.ts: loading and saving again (C9) *)

Lemma lookup_define key v fields : JSON.lookup key (JSON.define key v fields) = Some v.
Proof.
  induction fields as [|[k x] fields IH]; simpl.
  - by rewrite String.eqb_refl.
  - destruct (String.eqb k key) eqn:Hk; simpl; by rewrite Hk.
Qed.

Lemma define_present key v fields :
  JSON.lookup key fields = Some v → JSON.define key v fields = fields.
Proof.
  induction fields as [|[k x] fields IH]; simpl; [done|].
  destruct (String.eqb k key); [by intros [= ->] | intros H; by rewrite IH].
Qed.

Lemma define_absent key v fields :
  JSON.lookup key fields = None → JSON.define key v fields = fields ++ [(key, v)].
Proof.
  induction fields as [|[k x] fields IH]; simpl; [done|].
  destruct (String.eqb k key); [done | intros H; by rewrite IH].
Qed.

Lemma stringify_object_truthy fields :
  JS.falsy (JSON.stringify (JSON.JObject fields)) = false.
Proof. by destruct fields. Qed.

(** What [loadStats] returns always has a truthy [wordStats]. *)
Lemma loadStats_wordStats now storage :
  ∃ fields w,
    loadStats now storage = JSON.JObject fields
    ∧ JSON.lookup "wordStats" fields = Some w
    ∧ JSON.truthy w = true.
Proof.
  assert (∀ parsed v, withWordStats parsed = Some v →
            ∃ fields w, v = JSON.JObject fields
                        ∧ JSON.lookup "wordStats" fields = Some w
                        ∧ JSON.truthy w = true) as Hwith.
  { intros parsed v. unfold withWordStats.
    destruct (JSON.getProperty parsed "wordStats") as [found|]; [|done].
    intros [= <-]. eexists _, _. split; [done|]. split; [apply lookup_define|].
    destruct found as [w|]; [|done]. by destruct (JSON.truthy w) eqn:Hw. }
  assert (∃ fields w, defaultStats now = JSON.JObject fields
                      ∧ JSON.lookup "wordStats" fields = Some w
                      ∧ JSON.truthy w = true) as Hdefault.
  { by eexists _, _. }
  unfold loadStats.
  destruct (getItem storage STATS_KEY) as [[stored|]|]; try done.
  destruct (JS.falsy stored); [done|].
  destruct (JSON.parse stored) as [parsed|]; [|done].
  destruct (withWordStats parsed) as [v|] eqn:Hv; [|done].
  by apply (Hwith parsed).
Qed.

(** A stored record that has its per-word statistics is written back as it
    was read. *)
Lemma saveStats_loadStats_present now storage fields w :
  items storage !! STATS_KEY = Some (JSON.stringify (JSON.JObject fields)) →
  JSON.lookup "wordStats" fields = Some w →
  JSON.truthy w = true →
  saveStats (loadStats now storage) storage = storage.
Proof.
  intros Hstored Hlookup Htruthy.
  destruct storage as [its [|]]; [|done].
  unfold saveStats, loadStats, getItem, setItem. simpl in *.
  rewrite Hstored, stringify_object_truthy, parse_stringify.
  unfold withWordStats. simpl. rewrite Hlookup, Htruthy.
  rewrite define_present by done. simpl. f_equal. by apply insert_id.
Qed.

(** C9, as stated, fails for a record that an older version stored without
    the per-word map: loading it and saving it again appends an empty
    [wordStats] object to the stored text. *)
Lemma save_load_extends_old_record :
  items oldStorage !! STATS_KEY
  = Some (jsonText "{'correct':3,'attempts':5,'lastSessionDate':'2023-05-01T10:00:00.000Z'}")
  ∧ items (saveStats (loadStats "2024-01-01T00:00:00.000Z" oldStorage) oldStorage)
      !! STATS_KEY
    = Some (jsonText "{'correct':3,'attempts':5,'lastSessionDate':'2023-05-01T10:00:00.000Z','wordStats':{}}")
  ∧ items (saveStats (loadStats "2024-01-01T00:00:00.000Z" oldStorage) oldStorage)
      !! STATS_KEY
    ≠ items oldStorage !! STATS_KEY.
Proof.
  split; [|split].
  - vm_compute. reflexivity.
  - vm_compute. reflexivity.
  - vm_compute. discriminate.
Qed.

(** C9, amended. Let the stored item, if any, be a text written by
    [JSON.stringify]. Loading and saving is idempotent: after one round a
    second round leaves the storage as it is, whether or not the storage
    can be written. A stored record that has its per-word map (any truthy
    [wordStats]) is written back byte for byte. A stored record without the
    map is written back with an empty [wordStats] object added as its last
    property. *)
Theorem saveStats_loadStats_roundtrip now storage :
  (writtenByStringify storage →
   ∀ now',
     let once := saveStats (loadStats now storage) storage in
     saveStats (loadStats now' once) once = once)
  ∧ (∀ fields w,
       items storage !! STATS_KEY = Some (JSON.stringify (JSON.JObject fields)) →
       JSON.lookup "wordStats" fields = Some w →
       JSON.truthy w = true →
       saveStats (loadStats now storage) storage = storage)
  ∧ (∀ fields,
       available storage = true →
       items storage !! STATS_KEY = Some (JSON.stringify (JSON.JObject fields)) →
       JSON.lookup "wordStats" fields = None →
       items (saveStats (loadStats now storage) storage) !! STATS_KEY
       = Some (JSON.stringify
                 (JSON.JObject (fields ++ [("wordStats", JSON.JObject [])])))).
Proof.
  split; [|split].
  - intros _ now' once.
    destruct (loadStats_wordStats now storage) as (fields & w & Hload & Hw & Htruthy).
    subst once. rewrite Hload.
    destruct (available storage) eqn:Havailable.
    + replace (saveStats (JSON.JObject fields) storage)
        with (mkLocalStorage
                (<[STATS_KEY := JSON.stringify (JSON.JObject fields)]> (items storage))
                true)
        by (unfold saveStats, setItem; by rewrite Havailable).
      eapply saveStats_loadStats_present; [|exact Hw|exact Htruthy].
      simpl. apply lookup_insert_eq.
    + replace (saveStats (JSON.JObject fields) storage) with storage
        by (unfold saveStats, setItem; by rewrite Havailable).
      unfold saveStats, setItem. by rewrite Havailable.
  - intros fields w. apply saveStats_loadStats_present.
  - intros fields Havailable Hstored Hlookup.
    unfold saveStats, loadStats, getItem, setItem. rewrite Havailable, Hstored.
    rewrite stringify_object_truthy, parse_stringify.
    unfold withWordStats. simpl. rewrite Hlookup.
    rewrite define_absent by done. simpl. apply lookup_insert_eq.
Qed.

Lemma saveStats_loadStats_roundtrip_witness :
  saveStats
    (loadStats "2024-01-02T00:00:00.000Z"
       (saveStats (loadStats "2024-01-01T00:00:00.000Z" oldStorage) oldStorage))
    (saveStats (loadStats "2024-01-01T00:00:00.000Z" oldStorage) oldStorage)
  = saveStats (loadStats "2024-01-01T00:00:00.000Z" oldStorage) oldStorage
  ∧ items (saveStats (loadStats "2024-01-01T00:00:00.000Z" oldStorage) oldStorage)
      !! STATS_KEY
    = Some (JSON.stringify
              (JSON.JObject
                 [ ("correct", JSON.JNumber 3);
                   ("attempts", JSON.JNumber 5);
                   ("lastSessionDate", JSON.JString "2023-05-01T10:00:00.000Z");
                   ("wordStats", JSON.JObject []) ])).
Proof.
  destruct (saveStats_loadStats_roundtrip "2024-01-01T00:00:00.000Z" oldStorage)
    as (Hidem & _ & Hold).
  split.
  - apply Hidem. exists oldRecord. reflexivity.
  - apply (Hold [ ("correct", JSON.JNumber 3);
                  ("attempts", JSON.JNumber 5);
                  ("lastSessionDate", JSON.JString "2023-05-01T10:00:00.000Z") ]).
    + reflexivity.
    + reflexivity.
    + reflexivity.
Defined.

(** ** The scenarios of the tests, run on the model *)

Example setDifficulty_easy_two_words :
  length (shuffled (get (setDifficulty [1%nat] draws0 "easy" mockVocab freshStore)))
  = 2%nat.
Proof. reflexivity. Qed.

Example initializeQuiz_four_choices :
  let state := get (initializeQuiz [4; 3; 2; 1]%nat draws0 mockVocab None freshStore) in
  index state = 0 ∧ displayWord state = Some hallo
  ∧ length (displayChoices state) = 4%nat.
Proof. by repeat split. Qed.

Example wrong_then_correct_is_failed :
  let store :=
    handleAnswer "2024-01-01T00:00:05.000Z" "2024-01-01T00:00:05.001Z" true hallo
      (handleAnswer "2024-01-01T00:00:01.000Z" "2024-01-01T00:00:01.001Z" false hallo
         freshStore) in
  orEmpty (Stats.wordStats (stats (get store))) !! "1"
  = Some (WordStats.mk 2 1 "2024-01-01T00:00:05.000Z")
  ∧ getFailedWordIds (stats (get store)) = ["1"].
Proof. split; [reflexivity | by vm_compute]. Qed.

Example resetStats_zeroes :
  let state := get (resetStats "2024-01-02T00:00:00.000Z" answeredStore) in
  correct state = 0 ∧ attempts state = 0
  ∧ stats state = zeroStats "2024-01-02T00:00:00.000Z".
Proof. by repeat split. Qed.

Example restartQuiz_resets :
  let state := get restartedStore in
  index state = 0 ∧ userInput state = "" ∧ hasAnswered state = false
  ∧ lastResult state = None.
Proof. by repeat split. Qed.

Example trim_tabs_and_spaces :
  JS.trim (String "009"%char (String.append "  Thank you " (String "010"%char "")))
  = "Thank you".
Proof. reflexivity. Qed.

Example toLowerCase_umlaut :
  JS.toLowerCase (String.append "TSCH" (String "220"%char "SS"))
  = JS.toLowerCase (VocabItem.de tschuess).
Proof. reflexivity. Qed.

Example stringify_defaultStats :
  JSON.stringify (defaultStats "2024-01-01T00:00:00.000Z")
  = jsonText "{'correct':0,'attempts':0,'lastSessionDate':'2024-01-01T00:00:00.000Z','wordStats':{}}".
Proof. by vm_compute. Qed.

Example parse_rejects_leading_zero : JSON.parse "[01]" = None.
Proof. by vm_compute. Qed.


(** * Further properties of the code *)

(** ** helpers.ts: shuffleArray *)

Lemma swap_length {A} (l : list A) i j : length (swap l i j) = length l.
Proof.
  unfold swap. destruct (l !! i), (l !! j); try done. by rewrite !length_insert.
Qed.

Lemma swap_lookup_l {A} (l : list A) i j y :
  (i < length l)%nat → l !! j = Some y → swap l i j !! i = Some y.
Proof.
  intros Hi Hj. unfold swap. destruct (lookup_lt_is_Some_2 l i Hi) as [x Hx].
  rewrite Hx, Hj. apply list_lookup_insert_eq. by rewrite length_insert.
Qed.

Lemma swap_take {A} (l : list A) i j :
  (j ≤ i)%nat → take (S i) (swap l i j) ≡ₚ take (S i) l.
Proof.
  intros Hji. unfold swap.
  destruct (l !! i) as [x|] eqn:Hx; [|done].
  destruct (l !! j) as [y|] eqn:Hy; [|done].
  rewrite !take_insert_lt by lia.
  pose proof (swap_Permutation (take (S i) l) i j) as Hswap. unfold swap in Hswap.
  by rewrite !lookup_take_lt, Hx, Hy in Hswap by lia.
Qed.

Lemma swap_drop {A} (l : list A) i j :
  (j ≤ i)%nat → drop (S i) (swap l i j) = drop (S i) l.
Proof.
  intros Hji. unfold swap. destruct (l !! i), (l !! j); try done.
  by rewrite !drop_insert_lt by lia.
Qed.

(** From position [i] down, the loop can produce every list that agrees
    with [copy] beyond [i] and arranges its first [i + 1] items. *)
Lemma shuffleLoop_complete {A} i (copy target : list A) :
  (i < length copy)%nat →
  take (S i) copy ≡ₚ take (S i) target →
  drop (S i) copy = drop (S i) target →
  ∃ rs, length rs = i ∧ shuffleLoop i rs copy = target.
Proof.
  revert copy. induction i as [|i IH]; intros copy Hi Htake Hdrop.
  - exists []. split; [done|]. simpl.
    rewrite <- (take_drop 1 copy), <- (take_drop 1 target), Hdrop. f_equal.
    destruct copy as [|x copy]; [simpl in Hi; lia|].
    destruct target as [|y target]; simpl in *.
    + by apply Permutation_nil_r in Htake.
    + by apply Permutation_singleton_r in Htake.
  - assert (length copy = length target) as Hlen.
    { rewrite <- (take_drop (S (S i)) copy), <- (take_drop (S (S i)) target).
      by rewrite !length_app, Hdrop, (Permutation_length Htake). }
    destruct (lookup_lt_is_Some_2 target (S i)) as [t Ht]; [lia|].
    assert (t ∈ take (S (S i)) copy) as Hin.
    { rewrite Htake. apply list_elem_of_lookup. exists (S i).
      by rewrite lookup_take_lt by lia. }
    apply elem_of_take in Hin as (j & Hj & Hjlt).
    destruct (IH (swap copy (S i) j)) as (rs & Hrs & Hloop).
    + rewrite swap_length. lia.
    + apply (Permutation_app_inv_r [t]).
      rewrite <- (take_S_r target (S i) t) by done.
      rewrite <- (take_S_r (swap copy (S i) j) (S i) t)
        by (apply swap_lookup_l; [lia | done]).
      rewrite swap_take by lia. done.
    + rewrite (drop_S target t (S i)) by done.
      rewrite (drop_S (swap copy (S i) j) t (S i))
        by (apply swap_lookup_l; [lia | done]).
      by rewrite swap_drop, Hdrop by lia.
    + exists (j :: rs). split; [simpl; by rewrite Hrs|].
      cbn [shuffleLoop hd tl]. rewrite Nat.mod_small by lia. done.
Qed.

(** X1. Whatever the draws, [shuffleArray] returns an arrangement of its
    input: the same items, each as often as before, so the same length and
    the same members, and no repetition where there was none; an empty or
    one-item list comes back as it is. *)
Theorem shuffleArray_arrangement {A} (rs : Draws) (items : list A) :
  shuffleArray rs items ≡ₚ items
  ∧ length (shuffleArray rs items) = length items
  ∧ (∀ x, x ∈ shuffleArray rs items ↔ x ∈ items)
  ∧ (NoDup (shuffleArray rs items) ↔ NoDup items)
  ∧ shuffleArray rs (@nil A) = []
  ∧ (∀ x : A, shuffleArray rs [x] = [x]).
Proof.
  pose proof (shuffleLoop_Permutation (length items - 1) rs items) as Hperm.
  fold (shuffleArray rs items) in Hperm.
  split; [done|]. split; [by apply Permutation_length|].
  split; [intros x; by rewrite Hperm|]. split; [by rewrite Hperm|]. done.
Qed.

(** X2. Every arrangement of the input is the result of [shuffleArray] for
    some draws, one draw for each position from the last down to the
    second. *)
Theorem shuffleArray_reaches_every_arrangement {A} (items target : list A) :
  items ≡ₚ target →
  ∃ rs, length rs = (length items - 1)%nat ∧ shuffleArray rs items = target.
Proof.
  intros Hperm. unfold shuffleArray.
  destruct items as [|x items].
  - apply Permutation_nil_l in Hperm as <-. by exists [].
  - pose proof (Permutation_length Hperm) as Hlen.
    apply shuffleLoop_complete.
    + simpl. lia.
    + rewrite !firstn_all2 by (simpl in *; lia). done.
    + rewrite !drop_ge by (simpl in *; lia). done.
Qed.

Lemma shuffleArray_reaches_every_arrangement_witness :
  ∃ rs, length rs = 2%nat ∧ shuffleArray rs [hallo; tschuess; danke] = [danke; hallo; tschuess].
Proof.
  apply (shuffleArray_reaches_every_arrangement
           [hallo; tschuess; danke] [danke; hallo; tschuess]).
  symmetry. apply (Permutation_cons_append [hallo; tschuess] danke).
Defined.

(** ** helpers.ts: getChoices and filterVocab on any input *)

Lemma getChoices_Permutation rs vocab current mode :
  getChoices rs vocab current mode
  ≡ₚ Choice.mk (target mode current) true
     :: List.map (λ v, Choice.mk (target mode v) false)
          (take 3 (randomSort rs.1 (List.filter (isOther current) vocab))).
Proof. unfold getChoices. apply randomSort_Permutation. Qed.

Lemma filter_correct_distractors mode (l : list VocabItem.t) :
  List.filter Choice.isCorrect (List.map (λ v, Choice.mk (target mode v) false) l) = [].
Proof. induction l as [|v l IH]; [done|]. simpl. exact IH. Qed.

Lemma getChoices_correct rs vocab current mode :
  List.filter Choice.isCorrect (getChoices rs vocab current mode)
  = [Choice.mk (target mode current) true].
Proof.
  apply Permutation_singleton_r.
  rewrite (List_filter_Permutation _ _ _ (getChoices_Permutation rs vocab current mode)).
  simpl. by rewrite filter_correct_distractors.
Qed.

Lemma getChoices_length rs vocab current mode :
  length (getChoices rs vocab current mode)
  = S (Nat.min 3 (length (List.filter (isOther current) vocab))).
Proof.
  rewrite (Permutation_length (getChoices_Permutation rs vocab current mode)).
  cbn [length]. by rewrite length_map, length_take, randomSort_length.
Qed.

(** X3. On any vocabulary, also an empty one, one with repeated ids or one
    that does not hold the current word, [getChoices] returns one option
    more than the lesser of 3 and the number of items with another id, so
    between 1 and 4 options. Exactly one is marked correct and carries the
    current word's term; every other option carries the term of a
    vocabulary item with another id. Without such items the only option is
    the correct one. *)
Theorem getChoices_any_vocabulary rs vocab current mode :
  let choices := getChoices rs vocab current mode in
  let others := List.filter (isOther current) vocab in
  length choices = S (Nat.min 3 (length others))
  ∧ (1 ≤ length choices ≤ 4)%nat
  ∧ List.filter Choice.isCorrect choices = [Choice.mk (target mode current) true]
  ∧ (∀ c, c ∈ choices → Choice.isCorrect c = false →
       ∃ v, v ∈ vocab ∧ VocabItem.id v ≠ VocabItem.id current
            ∧ Choice.text c = target mode v)
  ∧ (others = [] → choices = [Choice.mk (target mode current) true]).
Proof.
  intros choices others. subst choices others.
  pose proof (getChoices_length rs vocab current mode) as Hlen.
  split; [done|]. split; [lia|]. split; [apply getChoices_correct|]. split.
  - intros c Hc Hwrong. rewrite getChoices_Permutation in Hc.
    apply elem_of_cons in Hc as [->|Hc]; [done|].
    apply list_elem_of_In, in_map_iff in Hc as (v & <- & Hv).
    apply list_elem_of_In, elem_of_take in Hv as (i & Hv & _).
    apply list_elem_of_lookup_2 in Hv. rewrite randomSort_Permutation in Hv.
    apply elem_of_List_filter in Hv as [Hv Hother]. exists v. split; [done|].
    split; [|done]. unfold isOther in Hother.
    by apply negb_true_iff, bool_decide_eq_false in Hother.
  - intros Hnone. apply Permutation_singleton_r.
    rewrite getChoices_Permutation, Hnone. done.
Qed.

(** X4. [filterVocab] returns the vocabulary as it is when the selector is
    absent, empty or "all", whatever the failed ids. With the selector
    "failed" it returns nothing when the list of failed ids is empty, and
    when no list is given it falls back to the comparison of the tier with
    the word "failed". Filtering a result again with the same arguments
    changes nothing. *)
Theorem filterVocab_edge_selectors items failedWordIds :
  filterVocab items None failedWordIds = items
  ∧ filterVocab items (Some "") failedWordIds = items
  ∧ filterVocab items (Some "all") failedWordIds = items
  ∧ filterVocab items (Some "failed") (Some []) = []
  ∧ filterVocab items (Some "failed") None
    = List.filter (λ it, bool_decide (VocabItem.difficulty it = "failed")) items
  ∧ (∀ difficulty,
       filterVocab (filterVocab items difficulty failedWordIds) difficulty failedWordIds
       = filterVocab items difficulty failedWordIds).
Proof.
  split; [by apply List_filter_all|]. split; [by apply List_filter_all|].
  split; [by apply List_filter_all|]. split; [|split].
  - apply List_filter_none. intros it _. cbn. apply bool_decide_eq_false.
    apply not_elem_of_nil.
  - unfold filterVocab. apply filter_ext. intros it. cbn.
    by destruct (bool_decide (VocabItem.difficulty it = "failed")).
  - intros difficulty. unfold filterVocab. apply List_filter_all.
    intros it Hit. by apply elem_of_List_filter in Hit as [_ Hit].
Qed.

(** ** quizStore.ts: starting a session *)

Lemma at_index_elem {A} (arr : list A) i x : at_index arr i = Some x → x ∈ arr.
Proof.
  unfold at_index. destruct (i <? 0); [done|]. apply list_elem_of_lookup_2.
Qed.

Lemma at_index_0_None {A} (arr : list A) : at_index arr 0 = None ↔ arr = [].
Proof. by destruct arr. Qed.

(** A word of the deck displayed with choices generated for it. *)
Lemma displayConsistent_generated rc state w :
  displayWord state = Some w →
  w ∈ shuffled state →
  displayChoices state = getChoices rc (shuffled state) w (mode state) →
  displayConsistent state.
Proof.
  intros Hw Hin Hchoices. unfold displayConsistent. rewrite Hw, Hchoices.
  split; [done|]. split; [apply getChoices_correct|].
  rewrite getChoices_length. lia.
Qed.

(** X5. [initializeQuiz] filters the vocabulary by the selector ("all"
    when none is given) and the failed ids of the current statistics, and
    leaves an arrangement of the filtered items as the deck, the index 0
    and the deck's first item displayed with choices that fit it; when
    nothing passes the filter, no word and no choices are displayed. The
    mode, the answer flags, the input, the statistics, the counters and
    the pending callbacks stay as they are. *)
Theorem initializeQuiz_spec rs rc vocab difficulty store :
  let selector := default "all" difficulty in
  let filtered :=
    filterVocab vocab (Some selector) (Some (getFailedWordIds (stats (get store)))) in
  let store' := initializeQuiz rs rc vocab difficulty store in
  let state' := get store' in
  shuffled state' ≡ₚ filtered
  ∧ index state' = 0
  ∧ QuizState.difficulty state' = selector
  ∧ displayWord state' = at_index (shuffled state') 0
  ∧ displayConsistent state'
  ∧ (displayWord state' = None ↔ filtered = [])
  ∧ mode state' = mode (get store)
  ∧ hasAnswered state' = hasAnswered (get store)
  ∧ lastResult state' = lastResult (get store)
  ∧ userInput state' = userInput (get store)
  ∧ stats state' = stats (get store)
  ∧ correct state' = correct (get store)
  ∧ attempts state' = attempts (get store)
  ∧ pendingTimeouts store' = pendingTimeouts store.
Proof.
  intros selector filtered store' state'.
  assert (shuffled state' = shuffleArray rs filtered) as Hdeck by done.
  assert (displayWord state' = at_index (shuffled state') 0) as Hword by done.
  split; [rewrite Hdeck; apply shuffleArray_Permutation|].
  split; [done|]. split; [done|]. split; [done|]. split; [|split].
  - assert (displayChoices state'
            = match displayWord state' with
              | Some w => getChoices rc (shuffled state') w (mode state')
              | None => []
              end) as Hchoices by done.
    destruct (displayWord state') as [w|] eqn:Hw.
    + apply (displayConsistent_generated rc _ w Hw); [|done].
      apply (at_index_elem _ 0). by rewrite <- Hword.
    + unfold displayConsistent. by rewrite Hw.
  - rewrite Hword, at_index_0_None, Hdeck. split.
    + intros Hnil. apply Permutation_nil_r. rewrite <- Hnil.
      symmetry. apply shuffleArray_Permutation.
    + by intros ->.
  - done.
Qed.

(** The advance that follows a store with index 0. *)
Lemma advance_from_index_0 rc store :
  index (get store) = 0 →
  displayWord (get (advanceToNextQuestion rc store))
  = shuffled (get store)
      !! (if (length (shuffled (get store)) <=? 1)%nat then 0%nat else 1%nat).
Proof.
  intros Hindex. unfold advanceToNextQuestion. simpl. rewrite Hindex.
  destruct (shuffled (get store)) as [|v [|v' deck]]; [done..|].
  rewrite Z.max_r by (simpl; lia). rewrite Z.rem_small by (simpl; lia). done.
Qed.

(** X6. [setDifficulty] is [initializeQuiz] with that selector followed by
    hiding the help: it starts a deck over the new subset but, like
    [initializeQuiz], keeps the answer flags, the input and the pending
    callbacks of the question that was displayed before. An advance that
    comes next, such as a callback still pending from an answer given
    before, therefore displays the new deck's word at position 1 (position
    0 for a deck of one word, none for an empty deck). *)
Theorem setDifficulty_as_initializeQuiz rs rc difficulty vocab store :
  let store' := setDifficulty rs rc difficulty vocab store in
  store' = setShowHelp false (initializeQuiz rs rc vocab (Some difficulty) store)
  ∧ showHelp (get store') = false
  ∧ hasAnswered (get store') = hasAnswered (get store)
  ∧ lastResult (get store') = lastResult (get store)
  ∧ userInput (get store') = userInput (get store)
  ∧ isTransitioning (get store') = isTransitioning (get store)
  ∧ pendingTimeouts store' = pendingTimeouts store
  ∧ (∀ rc',
       displayWord (get (advanceToNextQuestion rc' store'))
       = shuffled (get store')
           !! (if (length (shuffled (get store')) <=? 1)%nat then 0%nat else 1%nat))
  ∧ (∀ now nowSession isCorrect w rc' store'',
       fireTimeout rc'
         (setDifficulty rs rc difficulty vocab
            (handleAnswer now nowSession isCorrect w store)) = Some store'' →
       hasAnswered (get store'') = false
       ∧ displayWord (get store'')
         = shuffled (get store'')
             !! (if (length (shuffled (get store'')) <=? 1)%nat then 0%nat else 1%nat)).
Proof.
  intros store'. subst store'. repeat (split; [done|]). split.
  - intros rc'. by apply advance_from_index_0.
  - intros now nowSession isCorrect w rc' store''. unfold fireTimeout.
    change (pendingTimeouts
              (setDifficulty rs rc difficulty vocab
                 (handleAnswer now nowSession isCorrect w store)))
      with (S (pendingTimeouts store)).
    intros [= <-]. split; [done|].
    by rewrite advance_from_index_0.
Qed.

(** X7. A session over the failed words: after [initializeQuiz] with the
    selector "failed" the deck holds exactly the vocabulary items whose
    entry in the per-word statistics has more attempts than correct
    answers. *)
Theorem failed_session_deck rs rc vocab store w :
  w ∈ shuffled (get (initializeQuiz rs rc vocab (Some "failed") store))
  ↔ w ∈ vocab
    ∧ ∃ ws, orEmpty (Stats.wordStats (stats (get store))) !! VocabItem.id w = Some ws
            ∧ JS.gt (WordStats.attempts ws) (WordStats.correct ws).
Proof.
  change (shuffled (get (initializeQuiz rs rc vocab (Some "failed") store)))
    with (shuffleArray rs
            (filterVocab vocab (Some "failed")
               (Some (getFailedWordIds (stats (get store)))))).
  rewrite shuffleArray_Permutation. unfold filterVocab.
  rewrite elem_of_List_filter.
  rewrite (bool_decide_eq_true_2 (Some "failed" = Some "failed")) by done.
  cbv beta iota zeta. by rewrite bool_decide_eq_true, getFailedWordIds_elem.
Qed.

(** ** quizStore.ts: what holds in every reachable store *)

Lemma displayConsistent_same state state' :
  displayWord state' = displayWord state →
  displayChoices state' = displayChoices state →
  shuffled state' = shuffled state →
  mode state' = mode state →
  displayConsistent state → displayConsistent state'.
Proof. unfold displayConsistent. by intros -> -> -> ->. Qed.

Lemma displayConsistent_initializeQuiz rs rc vocab difficulty store :
  displayConsistent (get (initializeQuiz rs rc vocab difficulty store)).
Proof.
  set (state' := get (initializeQuiz rs rc vocab difficulty store)).
  assert (displayWord state' = at_index (shuffled state') 0) as Hword by done.
  assert (displayChoices state'
          = match displayWord state' with
            | Some w => getChoices rc (shuffled state') w (mode state')
            | None => []
            end) as Hchoices by done.
  destruct (displayWord state') as [w|] eqn:Hw.
  - apply (displayConsistent_generated rc _ w Hw); [|done].
    apply (at_index_elem _ 0). by rewrite <- Hword.
  - unfold displayConsistent. by rewrite Hw.
Qed.

Lemma displayConsistent_setDifficulty rs rc selector vocab store :
  displayConsistent (get (setDifficulty rs rc selector vocab store)).
Proof.
  set (state' := get (setDifficulty rs rc selector vocab store)).
  assert (displayWord state' = at_index (shuffled state') 0) as Hword by done.
  assert (displayChoices state'
          = match displayWord state' with
            | Some w => getChoices rc (shuffled state') w (mode state')
            | None => []
            end) as Hchoices by done.
  destruct (displayWord state') as [w|] eqn:Hw.
  - apply (displayConsistent_generated rc _ w Hw); [|done].
    apply (at_index_elem _ 0). by rewrite <- Hword.
  - unfold displayConsistent. by rewrite Hw.
Qed.

Lemma displayConsistent_advance rc store :
  displayConsistent (get (advanceToNextQuestion rc store)).
Proof.
  set (state' := get (advanceToNextQuestion rc store)).
  assert (∃ k, displayWord state' = at_index (shuffled state') k) as [k Hword]
    by by eexists.
  assert (displayChoices state'
          = match displayWord state' with
            | Some w => getChoices rc (shuffled state') w (mode state')
            | None => []
            end) as Hchoices by done.
  destruct (displayWord state') as [w|] eqn:Hw.
  - apply (displayConsistent_generated rc _ w Hw); [|done].
    apply (at_index_elem _ k). by rewrite <- Hword.
  - unfold displayConsistent. by rewrite Hw.
Qed.

Lemma displayConsistent_setMode rc mode store :
  displayConsistent (get store) → displayConsistent (get (setMode rc mode store)).
Proof.
  intros H. unfold setMode. unfold displayConsistent in H.
  destruct (displayWord (get store)) as [w|] eqn:Hw.
  - apply (displayConsistent_generated rc _ w); simpl; try done. by destruct H.
  - unfold displayConsistent. simpl. by rewrite Hw.
Qed.

Lemma displayConsistent_dispatch a store :
  displayConsistent (get store) → displayConsistent (get (dispatch a store)).
Proof.
  intros H. destruct a; simpl;
    try (by apply (displayConsistent_same (get store))).
  - apply displayConsistent_initializeQuiz.
  - by apply displayConsistent_setMode.
  - apply displayConsistent_setDifficulty.
  - apply displayConsistent_advance.
  - unfold submitTextAnswer.
    destruct (JS.falsy _ || hasAnswered (get store)); [done|].
    by apply (displayConsistent_same (get store)).
Qed.

(** X8. In every reachable store the display fits the deck and the mode:
    a displayed word is an item of the deck and comes with between one and
    four choices, of which exactly one is marked correct and carries the
    word's term in the target language of the current mode; when no word is
    displayed there are no choices. *)
Theorem reachable_displayConsistent store :
  reachable store → displayConsistent (get store).
Proof.
  induction 1 as [|store store' _ IH Hstep]; [done|].
  destruct Hstep as [a store|rc store store' Hfire].
  - by apply displayConsistent_dispatch.
  - unfold fireTimeout in Hfire. destruct (pendingTimeouts store); [done|].
    injection Hfire as <-. apply displayConsistent_advance.
Qed.

Lemma reachable_displayConsistent_witness :
  List.filter Choice.isCorrect (displayChoices (get answeredStore))
  = [Choice.mk "Hello" true].
Proof.
  pose proof (reachable_displayConsistent answeredStore reachable_answeredStore) as H.
  unfold displayConsistent in H.
  change (displayWord (get answeredStore)) with (Some hallo) in H.
  destruct H as (_ & H & _). exact H.
Defined.

(** X9. In every reachable store, while [hasAnswered] or [isTransitioning]
    holds at least one callback is pending: the feedback never stays
    without an advance to come. *)
Theorem reachable_feedback_has_pending_timeout store :
  reachable store →
  hasAnswered (get store) = true ∨ isTransitioning (get store) = true →
  (0 < pendingTimeouts store)%nat.
Proof.
  induction 1 as [|store store' _ IH Hstep]; [by intros [|]|].
  destruct Hstep as [a store|rc store store' Hfire].
  - destruct a; simpl; try done; try (intros _; lia); try (by intros [|]).
    + unfold setMode. by destruct (displayWord (get store)).
    + unfold submitTextAnswer.
      destruct (JS.falsy _ || hasAnswered (get store)); [done|]. simpl. lia.
    + intros [|H]; [done|]. apply IH. by right.
  - unfold fireTimeout in Hfire. destruct (pendingTimeouts store); [done|].
    injection Hfire as <-. by intros [|].
Qed.

Lemma reachable_feedback_has_pending_timeout_witness :
  (0 < pendingTimeouts answeredStore)%nat.
Proof.
  apply (reachable_feedback_has_pending_timeout answeredStore reachable_answeredStore).
  left. reflexivity.
Defined.


(** ** quizStore.ts and storage.ts: the counters *)

Lemma add_swap x y z : JS.add x (JS.add y z) = JS.add y (JS.add x z).
Proof. destruct x, y, z; simpl; try done. f_equal. lia. Qed.

Lemma add_Num_inv a x total : JS.add (JS.Num a) x = JS.Num total → x = JS.Num (total - a).
Proof. destruct x as [b|]; simpl; [|done]. intros [= <-]. f_equal. lia. Qed.

(** The sum over a dictionary, with the entry under one key set apart. *)
Lemma map_sum_delete (g : WordStats.t → JS.number) (m : gmap string WordStats.t) k old :
  m !! k = Some old →
  map_fold (λ _ ws total, JS.add (g ws) total) (JS.Num 0) m
  = JS.add (g old) (map_fold (λ _ ws total, JS.add (g ws) total) (JS.Num 0) (delete k m)).
Proof.
  intros Hk. rewrite <- (insert_delete_id m k old) at 1 by done.
  rewrite map_fold_insert_L; [done| |apply lookup_delete_eq].
  intros. apply add_swap.
Qed.

Lemma map_sum_insert (g : WordStats.t → JS.number) (m : gmap string WordStats.t) k v :
  map_fold (λ _ ws total, JS.add (g ws) total) (JS.Num 0) (<[k := v]> m)
  = JS.add (g v) (map_fold (λ _ ws total, JS.add (g ws) total) (JS.Num 0) (delete k m)).
Proof.
  rewrite <- (insert_delete_eq m k v).
  rewrite map_fold_insert_L; [done| |apply lookup_delete_eq].
  intros. apply add_swap.
Qed.

Lemma countersConsistent_same state state' :
  stats state' = stats state →
  correct state' = correct state →
  attempts state' = attempts state →
  countersConsistent state → countersConsistent state'.
Proof. unfold countersConsistent. by intros -> -> ->. Qed.

Lemma countersConsistent_zero now state :
  stats state = zeroStats now → correct state = 0 → attempts state = 0 →
  countersConsistent state.
Proof.
  intros Hstats Hc Ha. unfold countersConsistent. rewrite Hstats, Hc, Ha. simpl.
  repeat split; try done.
Qed.

Lemma countersConsistent_handleAnswer now nowSession isCorrect currentWord store :
  JS.inheritedName (VocabItem.id currentWord) = false →
  countersConsistent (get store) →
  countersConsistent (get (handleAnswer now nowSession isCorrect currentWord store)).
Proof.
  intros Hplain (Hc & Ha & Hta & Htc & Hbounds & Hall).
  set (m := orEmpty (Stats.wordStats (stats (get store)))) in *.
  set (wordId := VocabItem.id currentWord) in *.
  unfold countersConsistent, handleAnswer, updateWordStats, getMember. simpl.
  fold m. fold wordId. unfold totalAttempts, totalCorrect in *.
  rewrite (map_sum_insert WordStats.attempts), (map_sum_insert WordStats.correct).
  split; [done|]. split; [done|].
  destruct (m !! wordId) as [old|] eqn:Hlookup; simpl.
  - destruct (map_Forall_lookup_1 _ _ _ _ Hall Hlookup) as (a & c & Hoa & Hoc & Hca & H1a).
    rewrite (map_sum_delete WordStats.attempts m wordId old Hlookup), Hoa in Hta.
    rewrite (map_sum_delete WordStats.correct m wordId old Hlookup), Hoc in Htc.
    apply add_Num_inv in Hta. apply add_Num_inv in Htc.
    rewrite Hta, Htc, Hoa, Hoc.
    destruct isCorrect; simpl.
    + split; [f_equal; lia|]. split; [f_equal; lia|]. split; [lia|].
      apply map_Forall_insert_2; [|done]. simpl.
      exists (a + 1), (c + 1). split; [done|]. split; [done|]. lia.
    + split; [f_equal; lia|]. split; [f_equal; lia|]. split; [lia|].
      apply map_Forall_insert_2; [|done]. simpl.
      exists (a + 1), (c + 0). split; [done|]. split; [done|]. lia.
  - rewrite Hplain. simpl. rewrite delete_id by done. rewrite Hta, Htc.
    destruct isCorrect; simpl.
    + split; [f_equal; lia|]. split; [f_equal; lia|]. split; [lia|].
      apply map_Forall_insert_2; [|done]. simpl.
      exists 1, 1. split; [done|]. split; [done|]. lia.
    + split; [f_equal; lia|]. split; [f_equal; lia|]. split; [lia|].
      apply map_Forall_insert_2; [|done]. simpl.
      exists 1, 0. split; [done|]. split; [done|]. lia.
Qed.

Lemma countersConsistent_dispatch a store :
  plainAction a = true →
  countersConsistent (get store) → countersConsistent (get (dispatch a store)).
Proof.
  intros Hplain H. destruct a; simpl in *;
    try (by apply (countersConsistent_same (get store))).
  - unfold setMode. destruct (displayWord (get store));
      by apply (countersConsistent_same (get store)).
  - apply countersConsistent_handleAnswer; [by apply negb_true_iff | done].
  - unfold submitTextAnswer.
    destruct (JS.falsy _ || hasAnswered (get store)); [done|].
    apply countersConsistent_handleAnswer; [by apply negb_true_iff | done].
  - by eapply countersConsistent_zero.
Qed.

Lemma countersConsistent_runEvent e store store' :
  plainEvent e = true →
  countersConsistent (get store) → runEvent e store = Some store' →
  countersConsistent (get store').
Proof.
  intros Hplain H. destruct e as [a|rc]; simpl in *.
  - intros [= <-]. by apply countersConsistent_dispatch.
  - unfold fireTimeout. destruct (pendingTimeouts store); [done|].
    intros [= <-]. by apply (countersConsistent_same (get store)).
Qed.

(** X10. The counters fit together from the start and stay so, as long as
    no answered word has an id that is the name of a member of
    [Object.prototype]: in a new store, and after every such run of calls
    and callbacks from a store in which they do, the aggregate counters
    equal their copies in the statistics record and the sums of the
    per-word attempts and correct answers, the correct answers never exceed
    the attempts, and every per-word entry has integer counters, at least
    one attempt and no more correct answers than attempts. [resetStats]
    brings every store to that state. *)
Theorem countersConsistent_kept :
  (∀ now, countersConsistent (get (newStore now)))
  ∧ (∀ es store store',
       forallb plainEvent es = true →
       countersConsistent (get store) → runEvents es store = Some store' →
       countersConsistent (get store'))
  ∧ (∀ now store, countersConsistent (get (resetStats now store))).
Proof.
  split; [|split].
  - intros now. by eapply countersConsistent_zero.
  - induction es as [|e es IH]; intros store store' Hplain H Hrun; simpl in *.
    + by simplify_eq.
    + apply andb_true_iff in Hplain as [He Hes].
      destruct (runEvent e store) as [store1|] eqn:Hstep; [|done].
      eapply IH; [done| |done]. by eapply countersConsistent_runEvent.
  - intros now store. by eapply countersConsistent_zero.
Qed.

Lemma countersConsistent_kept_witness :
  countersConsistent (get restartedOnSecondWord).
Proof.
  destruct countersConsistent_kept as (Hnew & Hrun & _).
  apply (Hrun twoWordEvents freshStore).
  - reflexivity.
  - apply (Hnew "2024-01-01T00:00:00.000Z").
  - reflexivity.
Defined.

(** ** storage.ts and quizStore.ts: failed words and attempted words *)

Lemma handleAnswer_wordStats now nowSession isCorrect currentWord store :
  orEmpty (Stats.wordStats
             (stats (get (handleAnswer now nowSession isCorrect currentWord store))))
  = orEmpty (Stats.wordStats
               (updateWordStats now (stats (get store)) (VocabItem.id currentWord)
                  isCorrect)).
Proof. done. Qed.

Lemma gt_add_correct x y : JS.gt (JS.add x 1) (JS.add y 1) ↔ JS.gt x y.
Proof.
  unfold JS.gt. destruct x as [a|], y as [b|]; simpl; try done.
  rewrite !Z.gtb_gt. lia.
Qed.

Lemma gt_add_wrong x y : JS.gt x y → JS.gt (JS.add x 1) (JS.add y 0).
Proof.
  unfold JS.gt. destruct x as [a|], y as [b|]; simpl; try done.
  rewrite !Z.gtb_gt. lia.
Qed.

Lemma handleAnswer_keeps_failed now nowSession isCorrect currentWord store wordId :
  wordId ∈ getFailedWordIds (stats (get store)) →
  wordId ∈ getFailedWordIds
             (stats (get (handleAnswer now nowSession isCorrect currentWord store))).
Proof.
  rewrite !getFailedWordIds_elem, handleAnswer_wordStats.
  intros (ws & Hws & Hfailed).
  destruct (decide (wordId = VocabItem.id currentWord)) as [->|Hne].
  - rewrite updateWordStats_lookup, Hws. eexists. split; [done|].
    simpl. destruct isCorrect; [by apply gt_add_correct | by apply gt_add_wrong].
  - rewrite updateWordStats_lookup_ne by done. by exists ws.
Qed.

(** X11. A failed word stays failed: whatever action other than
    [resetStats] is dispatched, with whatever arguments, a word id that
    [getFailedWordIds] lists before it is listed after it; later correct
    answers do not take a word off the list. *)
Theorem failed_word_stays_failed a store wordId :
  isResetStats a = false →
  wordId ∈ getFailedWordIds (stats (get store)) →
  wordId ∈ getFailedWordIds (stats (get (dispatch a store))).
Proof.
  intros Ha Hfailed. destruct a; simpl in *; try done.
  - unfold setMode. by destruct (displayWord (get store)).
  - by apply handleAnswer_keeps_failed.
  - unfold submitTextAnswer.
    destruct (JS.falsy _ || hasAnswered (get store)); [done|].
    by apply handleAnswer_keeps_failed.
Qed.

Lemma failed_word_stays_failed_witness :
  "1" ∈ getFailedWordIds
          (stats (get (dispatch
                         (HandleAnswer "2024-01-01T00:00:05.000Z"
                            "2024-01-01T00:00:05.001Z" true hallo)
                         (handleAnswer "2024-01-01T00:00:01.000Z"
                            "2024-01-01T00:00:01.001Z" false hallo freshStore)))).
Proof.
  apply (failed_word_stays_failed
           (HandleAnswer "2024-01-01T00:00:05.000Z" "2024-01-01T00:00:05.001Z" true hallo)
           (handleAnswer "2024-01-01T00:00:01.000Z" "2024-01-01T00:00:01.001Z"
              false hallo freshStore)
           "1").
  - reflexivity.
  - vm_compute. left.
Defined.

(** X12. What an answer does to the failed words: a correct answer changes
    the list for no word; an answer on one word changes it for no other
    word; a wrong answer puts the answered word on the list, provided its
    entry so far has integer counters with no more correct answers than
    attempts or, when it has no entry, its id is not the name of a member
    of [Object.prototype]. *)
Theorem handleAnswer_failed_words now nowSession isCorrect currentWord store wordId :
  let before := getFailedWordIds (stats (get store)) in
  let after :=
    getFailedWordIds
      (stats (get (handleAnswer now nowSession isCorrect currentWord store))) in
  (isCorrect = true → (wordId ∈ after ↔ wordId ∈ before))
  ∧ (wordId ≠ VocabItem.id currentWord → (wordId ∈ after ↔ wordId ∈ before))
  ∧ (isCorrect = false →
     match orEmpty (Stats.wordStats (stats (get store))) !! VocabItem.id currentWord with
     | Some ws =>
         ∃ a c, WordStats.attempts ws = JS.Num a ∧ WordStats.correct ws = JS.Num c
                ∧ c ≤ a
     | None => JS.inheritedName (VocabItem.id currentWord) = false
     end →
     VocabItem.id currentWord ∈ after).
Proof.
  intros before after. subst before after.
  rewrite !getFailedWordIds_elem, handleAnswer_wordStats.
  split; [|split].
  - intros ->. destruct (decide (wordId = VocabItem.id currentWord)) as [->|Hne].
    + rewrite updateWordStats_lookup.
      destruct (orEmpty _ !! VocabItem.id currentWord) as [old|] eqn:Hold.
      * split.
        -- intros (ws & [= <-] & H). exists old. split; [done|].
           by apply gt_add_correct.
        -- intros (ws & [= <-] & H). eexists. split; [done|].
           by apply gt_add_correct.
      * split.
        -- intros (ws & [= <-] & H).
           by destruct (JS.inheritedName (VocabItem.id currentWord)).
        -- by intros (ws & ? & _).
    + by rewrite updateWordStats_lookup_ne.
  - intros Hne. by rewrite updateWordStats_lookup_ne.
  - intros -> Hold. rewrite updateWordStats_lookup.
    destruct (orEmpty _ !! VocabItem.id currentWord) as [old|].
    + destruct Hold as (a & c & Ha & Hc & Hle).
      eexists. split; [done|]. simpl. rewrite Ha, Hc.
      unfold JS.gt. simpl. apply Z.gtb_gt. lia.
    + rewrite Hold. by eexists.
Qed.

Lemma length_keys (m : gmap string WordStats.t) : length (keys m) = size m.
Proof. unfold keys. by rewrite length_fmap, length_map_to_list. Qed.

(** X13. [getTotalUniqueWordsAttempted] counts each word once: recording an
    answer for a word that has an entry leaves the count as it is, for a
    word without an entry it adds one. The count is 0 for the zero record
    and never below the number of failed words. *)
Theorem getTotalUniqueWordsAttempted_counts now stats wordId isCorrect :
  getTotalUniqueWordsAttempted (updateWordStats now stats wordId isCorrect)
  = getTotalUniqueWordsAttempted stats
    + match orEmpty (Stats.wordStats stats) !! wordId with
      | Some _ => 0
      | None => 1
      end
  ∧ Z.of_nat (length (getFailedWordIds stats)) ≤ getTotalUniqueWordsAttempted stats
  ∧ getTotalUniqueWordsAttempted (zeroStats now) = 0.
Proof.
  unfold getTotalUniqueWordsAttempted. rewrite !length_keys.
  split; [|split].
  - unfold updateWordStats. simpl. rewrite map_size_insert.
    destruct (orEmpty (Stats.wordStats stats) !! wordId); simpl; lia.
  - rewrite <- length_keys. unfold getFailedWordIds.
    apply inj_le, filter_length_le.
  - done.
Qed.

(** X24. Counting an answer. [handleAnswer] adds 1 to the aggregate
    attempts and adds 1 to the aggregate correct count exactly when the
    answer was correct, and the statistics record carries the same two
    numbers. For a word that has an entry, or whose id is not the name of a
    member of [Object.prototype], it does the same to the word's entry,
    which it creates with one attempt on the word's first answer; the
    entries of the other words stay as they are. One correct answer on such
    a word from zeroed statistics gives correct = 1 and attempts = 1, in
    the aggregate and for the word. *)
Theorem handleAnswer_stats now nowSession isCorrect currentWord store :
  is_Some (orEmpty (Stats.wordStats (stats (get store))) !! VocabItem.id currentWord)
  ∨ JS.inheritedName (VocabItem.id currentWord) = false →
  let state := get store in
  let state' := get (handleAnswer now nowSession isCorrect currentWord store) in
  let before := orEmpty (Stats.wordStats (stats state)) in
  let after := orEmpty (Stats.wordStats (stats state')) in
  attempts state' = attempts state + 1
  ∧ correct state' = correct state + (if isCorrect then 1 else 0)
  ∧ (correct state' = correct state + 1 ↔ isCorrect = true)
  ∧ Stats.attempts (stats state') = attempts state'
  ∧ Stats.correct (stats state') = correct state'
  ∧ after !! VocabItem.id currentWord
    = Some
        (match before !! VocabItem.id currentWord with
         | Some ws =>
             WordStats.mk (JS.add (WordStats.attempts ws) 1)
               (JS.add (WordStats.correct ws) (if isCorrect then 1 else 0)) now
         | None => WordStats.mk 1 (if isCorrect then 1 else 0) now
         end)
  ∧ (∀ a c last,
       before !! VocabItem.id currentWord
       = Some (WordStats.mk (JS.Num a) (JS.Num c) last) →
       after !! VocabItem.id currentWord
       = Some (WordStats.mk (JS.Num (a + 1))
                 (JS.Num (c + (if isCorrect then 1 else 0))) now))
  ∧ (∀ other, other ≠ VocabItem.id currentWord → after !! other = before !! other)
  ∧ (stats state = zeroStats (Stats.lastSessionDate (stats state)) →
     correct state = 0 → attempts state = 0 → isCorrect = true →
     correct state' = 1 ∧ attempts state' = 1
     ∧ after !! VocabItem.id currentWord = Some (WordStats.mk 1 1 now)).
Proof.
  intros Hplain state state' before after.
  assert (after !! VocabItem.id currentWord
          = Some
              (match before !! VocabItem.id currentWord with
               | Some ws =>
                   WordStats.mk (JS.add (WordStats.attempts ws) 1)
                     (JS.add (WordStats.correct ws) (if isCorrect then 1 else 0)) now
               | None => WordStats.mk 1 (if isCorrect then 1 else 0) now
               end)) as Hentry.
  { subst after state'. rewrite handleAnswer_wordStats, updateWordStats_lookup.
    fold state. fold before.
    destruct (before !! VocabItem.id currentWord) as [ws|] eqn:Hws; [done|].
    destruct Hplain as [[ws Hsome] | ->]; [|done].
    subst before state. by rewrite Hws in Hsome. }
  split; [done|]. split; [done|]. split.
  { subst state' state. simpl.
    destruct isCorrect; (split; intros H; [try done; lia | try done]). }
  split; [done|]. split; [done|]. split; [exact Hentry|]. split; [|split].
  - intros a c last Hbefore. rewrite Hentry, Hbefore. simpl.
    by destruct isCorrect.
  - intros other Hne. subst after state'.
    rewrite handleAnswer_wordStats. by apply updateWordStats_lookup_ne.
  - intros Hzero Hc Ha ->. subst state'. simpl. fold state. rewrite Hc, Ha.
    split; [done|]. split; [done|].
    rewrite Hentry. subst before. rewrite Hzero. simpl. by rewrite lookup_empty.
Qed.

Lemma handleAnswer_stats_witness :
  let state' :=
    get (handleAnswer "2024-01-01T00:00:01.000Z" "2024-01-01T00:00:01.001Z" true hallo
           freshStore) in
  correct state' = 1
  ∧ attempts state' = 1
  ∧ orEmpty (Stats.wordStats (stats state')) !! "1"
    = Some (WordStats.mk 1 1 "2024-01-01T00:00:01.000Z").
Proof.
  destruct (handleAnswer_stats "2024-01-01T00:00:01.000Z" "2024-01-01T00:00:01.001Z"
              true hallo freshStore)
    as (_ & _ & _ & _ & _ & _ & _ & _ & H).
  - right. reflexivity.
  - apply H; reflexivity.
Defined.

(** ** quizStore.ts: advancing through the deck *)

Lemma advanceAll_snoc rcs rc store :
  advanceAll (rcs ++ [rc]) store = advanceToNextQuestion rc (advanceAll rcs store).
Proof. unfold advanceAll. by rewrite foldl_app. Qed.

Lemma advanceAll_frame rcs store :
  index (get (advanceAll rcs store)) = index (get store) + Z.of_nat (length rcs)
  ∧ shuffled (get (advanceAll rcs store)) = shuffled (get store)
  ∧ mode (get (advanceAll rcs store)) = mode (get store)
  ∧ difficulty (get (advanceAll rcs store)) = difficulty (get store)
  ∧ stats (get (advanceAll rcs store)) = stats (get store)
  ∧ QuizState.correct (get (advanceAll rcs store)) = QuizState.correct (get store)
  ∧ QuizState.attempts (get (advanceAll rcs store)) = QuizState.attempts (get store)
  ∧ pendingTimeouts (advanceAll rcs store) = pendingTimeouts store.
Proof.
  induction rcs as [|rc rcs IH] using rev_ind.
  - simpl. repeat split; lia.
  - rewrite advanceAll_snoc, length_app. simpl.
    destruct IH as (Hi & Hd & Hm & Hdi & Hs & Hc & Ha & Hp).
    rewrite Hi. repeat split; try done. lia.
Qed.

Lemma at_index_nil {A} i : at_index (@nil A) i = None.
Proof. unfold at_index. by destruct (i <? 0)%Z. Qed.

Lemma advanceAll_displayWord rcs store :
  0 ≤ index (get store) → rcs ≠ [] →
  displayWord (get (advanceAll rcs store))
  = at_index (shuffled (get store))
      ((index (get store) + Z.of_nat (length rcs))
       `mod` Z.of_nat (length (shuffled (get store)))).
Proof.
  intros Hindex Hrcs.
  destruct rcs as [|rc rcs _] using rev_ind; [done|].
  rewrite advanceAll_snoc, length_app. simpl.
  destruct (advanceAll_frame rcs store) as (Hi & Hd & _).
  rewrite Hi, Hd.
  destruct (shuffled (get store)) as [|w deck] eqn:Hdeck.
  - by rewrite !at_index_nil.
  - f_equal. rewrite Z.max_r by (simpl; lia).
    rewrite Z.rem_mod_nonneg by (simpl; lia). f_equal. lia.
Qed.

(** X14. Advancing cycles through the deck. After any number of advances,
    with whatever draws, the index has grown by that number and the deck,
    the mode, the difficulty, the statistics and the pending timeouts are
    as before; after at least one advance the displayed word is the deck's
    word at the new index modulo the deck's length, and the answer state is
    cleared. So every word of the deck is displayed after some number of
    advances between 1 and the deck's length, and as many advances as the
    deck has words lead back to the word at the position of the index. *)
Theorem advanceAll_cycles_through_deck store :
  0 ≤ index (get store) →
  let deck := shuffled (get store) in
  (∀ rcs,
     index (get (advanceAll rcs store)) = index (get store) + Z.of_nat (length rcs)
     ∧ shuffled (get (advanceAll rcs store)) = deck
     ∧ mode (get (advanceAll rcs store)) = mode (get store)
     ∧ difficulty (get (advanceAll rcs store)) = difficulty (get store)
     ∧ stats (get (advanceAll rcs store)) = stats (get store)
     ∧ pendingTimeouts (advanceAll rcs store) = pendingTimeouts store)
  ∧ (∀ rcs, rcs ≠ [] →
       displayWord (get (advanceAll rcs store))
       = at_index deck
           ((index (get store) + Z.of_nat (length rcs)) `mod` Z.of_nat (length deck))
       ∧ hasAnswered (get (advanceAll rcs store)) = false
       ∧ isTransitioning (get (advanceAll rcs store)) = false
       ∧ userInput (get (advanceAll rcs store)) = ""
       ∧ lastResult (get (advanceAll rcs store)) = None)
  ∧ (∀ w, w ∈ deck →
       ∃ k, (1 ≤ k ≤ length deck)%nat
            ∧ ∀ rcs, length rcs = k →
                     displayWord (get (advanceAll rcs store)) = Some w)
  ∧ (∀ rcs, deck ≠ [] → length rcs = length deck →
       displayWord (get (advanceAll rcs store))
       = at_index deck (index (get store) `mod` Z.of_nat (length deck))).
Proof.
  intros Hindex deck. split; [|split; [|split]].
  - intros rcs. destruct (advanceAll_frame rcs store) as (? & ? & ? & ? & ? & _ & _ & ?).
    done.
  - intros rcs Hrcs. split; [by apply advanceAll_displayWord|].
    destruct rcs as [|rc rcs _] using rev_ind; [done|].
    by rewrite advanceAll_snoc.
  - intros w Hw. apply list_elem_of_lookup in Hw as [i Hi].
    pose proof (lookup_lt_Some _ _ _ Hi) as Hlt.
    set (n := Z.of_nat (length deck)).
    set (k := (Z.of_nat i - index (get store) - 1) `mod` n + 1).
    assert (0 < n) as Hn by (subst n; lia).
    pose proof (Z.mod_pos_bound (Z.of_nat i - index (get store) - 1) n Hn) as Hk.
    exists (Z.to_nat k). split; [subst k n; lia|].
    intros rcs Hlen. rewrite advanceAll_displayWord; [|done|].
    + fold deck. fold n. rewrite Hlen, Z2Nat.id by (subst k; lia).
      replace ((index (get store) + k) `mod` n) with (Z.of_nat i).
      * unfold at_index. destruct (Z.of_nat i <? 0)%Z eqn:Hneg; [lia|].
        by rewrite Nat2Z.id.
      * subst k.
        replace (index (get store) + ((Z.of_nat i - index (get store) - 1) `mod` n + 1))
          with ((index (get store) + 1) + (Z.of_nat i - index (get store) - 1) `mod` n)
          by lia.
        rewrite Z.add_mod_idemp_r by lia.
        replace (index (get store) + 1 + (Z.of_nat i - index (get store) - 1))
          with (Z.of_nat i) by lia.
        symmetry. apply Z.mod_small. subst n. lia.
    + intros ->. simpl in Hlen. subst k. lia.
  - intros rcs Hdeck Hlen. rewrite advanceAll_displayWord; [|done|].
    + fold deck. rewrite Hlen. f_equal.
      rewrite <- (Z.mul_1_l (Z.of_nat (length deck))) at 1.
      apply Z.mod_add. destruct deck; [done | simpl; lia].
    + intros ->. destruct deck; done.
Qed.

Lemma advanceAll_cycles_through_deck_witness :
  displayWord (get (advanceAll [draws0; draws0; draws0] twoWordStore)) = Some tschuess.
Proof.
  destruct (advanceAll_cycles_through_deck twoWordStore) as (_ & Hword & _).
  - vm_compute. discriminate.
  - destruct (Hword [draws0; draws0; draws0]) as [-> _]; [done|]. reflexivity.
Defined.

(** ** storage.ts: what is loaded, saved and cleared *)

Lemma lookup_define_ne key key' v fields :
  key' ≠ key → JSON.lookup key' (JSON.define key v fields) = JSON.lookup key' fields.
Proof.
  intros Hne. induction fields as [|[k x] fields IH]; simpl.
  - destruct (String.eqb key key') eqn:Hk; [|done].
    apply String.eqb_eq in Hk. by subst.
  - destruct (String.eqb k key) eqn:Hk; simpl.
    + apply String.eqb_eq in Hk. subst k.
      destruct (String.eqb key key') eqn:Hk'; [|done].
      apply String.eqb_eq in Hk'. by subst.
    + by destruct (String.eqb k key').
Qed.

(** X15. What [loadStats] falls back to and what it keeps. It returns the
    default record (zero counters, the current time, an empty per-word map)
    when the storage cannot be read, when nothing is stored under the key,
    when the stored text is empty, and when it is the JSON text [null]. For
    a stored text that [JSON.stringify] wrote for an object with distinct
    keys it returns an object in which [wordStats] is the stored value when
    that is truthy and an empty object otherwise, and every other property
    is as stored; for a stored [true] or [false] it returns a record with
    an empty [wordStats] and nothing else. Whatever value the parser
    returns, the record built from it is an object with a truthy
    [wordStats], and so is the default record. *)
Theorem loadStats_fallbacks now storage :
  (available storage = false → loadStats now storage = defaultStats now)
  ∧ (items storage !! STATS_KEY = None → loadStats now storage = defaultStats now)
  ∧ (items storage !! STATS_KEY = Some ""
     ∨ items storage !! STATS_KEY = Some (JSON.stringify JSON.JNull) →
     loadStats now storage = defaultStats now)
  ∧ (∀ fields,
       available storage = true →
       items storage !! STATS_KEY = Some (JSON.stringify (JSON.JObject fields)) →
       NoDup fields.*1 →
       ∃ loaded w,
         loadStats now storage = JSON.JObject loaded
         ∧ JSON.lookup "wordStats" loaded = Some w
         ∧ w = match JSON.lookup "wordStats" fields with
               | Some old => if JSON.truthy old then old else JSON.JObject []
               | None => JSON.JObject []
               end
         ∧ (∀ key, key ≠ "wordStats" → JSON.lookup key loaded = JSON.lookup key fields))
  ∧ (∀ b,
       available storage = true →
       items storage !! STATS_KEY = Some (JSON.stringify (JSON.JBool b)) →
       loadStats now storage = JSON.JObject [("wordStats", JSON.JObject [])])
  ∧ (∀ parsed built,
       withWordStats parsed = Some built →
       ∃ loaded w,
         built = JSON.JObject loaded
         ∧ JSON.lookup "wordStats" loaded = Some w
         ∧ JSON.truthy w = true)
  ∧ (∃ w, JSON.getProperty (defaultStats now) "wordStats" = Some (Some w)
          ∧ JSON.truthy w = true).
Proof.
  split; [|split; [|split; [|split; [|split; [|split]]]]].
  - intros Havailable. unfold loadStats, getItem. by rewrite Havailable.
  - intros Hnone. unfold loadStats, getItem. rewrite Hnone.
    by destruct (available storage).
  - intros Hstored. unfold loadStats, getItem.
    destruct (available storage); [|done]. by destruct Hstored as [-> | ->].
  - intros fields Havailable Hstored _.
    unfold loadStats, getItem. rewrite Havailable, Hstored.
    rewrite stringify_object_truthy, parse_stringify.
    unfold withWordStats. cbn [JSON.getProperty].
    eexists _, _. split; [done|]. split; [apply lookup_define|].
    split; [done|]. intros key Hkey. by apply lookup_define_ne.
  - intros b Havailable Hstored. unfold loadStats, getItem.
    rewrite Havailable, Hstored. by destruct b.
  - intros parsed built. unfold withWordStats.
    destruct (JSON.getProperty parsed "wordStats") as [found|]; [|done].
    intros [= <-]. eexists _, _. split; [done|]. split; [apply lookup_define|].
    destruct found as [w|]; [|done]. by destruct (JSON.truthy w) eqn:Hw.
  - by eexists.
Qed.

(** X16. Saving and then loading: when the storage can be used, a record
    with a truthy [wordStats] that is saved with [saveStats] is what
    [loadStats] returns afterwards, whatever was stored before; saving
    touches no other item of the storage. *)
Theorem saveStats_then_loadStats now fields w storage :
  available storage = true →
  JSON.lookup "wordStats" fields = Some w →
  JSON.truthy w = true →
  loadStats now (saveStats (JSON.JObject fields) storage) = JSON.JObject fields
  ∧ (∀ key, key ≠ STATS_KEY →
       items (saveStats (JSON.JObject fields) storage) !! key = items storage !! key).
Proof.
  intros Havailable Hw Htruthy.
  unfold saveStats, setItem. rewrite Havailable. simpl. split.
  - unfold loadStats, getItem. simpl. rewrite lookup_insert_eq.
    rewrite stringify_object_truthy, parse_stringify.
    unfold withWordStats. simpl. rewrite Hw, Htruthy.
    by rewrite define_present.
  - intros key Hkey. by rewrite lookup_insert_ne.
Qed.

Lemma saveStats_then_loadStats_witness :
  loadStats "2024-01-02T00:00:00.000Z"
    (saveStats
       (JSON.JObject
          [ ("correct", JSON.JNumber 3); ("attempts", JSON.JNumber 5);
            ("lastSessionDate", JSON.JString "2023-05-01T10:00:00.000Z");
            ("wordStats", JSON.JObject []) ])
       oldStorage)
  = JSON.JObject
      [ ("correct", JSON.JNumber 3); ("attempts", JSON.JNumber 5);
        ("lastSessionDate", JSON.JString "2023-05-01T10:00:00.000Z");
        ("wordStats", JSON.JObject []) ].
Proof.
  apply (saveStats_then_loadStats "2024-01-02T00:00:00.000Z"
           [ ("correct", JSON.JNumber 3); ("attempts", JSON.JNumber 5);
             ("lastSessionDate", JSON.JString "2023-05-01T10:00:00.000Z");
             ("wordStats", JSON.JObject []) ]
           (JSON.JObject []) oldStorage); reflexivity.
Defined.

(** X17. [clearStats] returns the default record and removes the stored
    one: a later [loadStats] returns the default record of its own time.
    No other item is touched, a storage that cannot be used is left as it
    is, and clearing twice is clearing once. *)
Theorem clearStats_spec now storage :
  (clearStats now storage).1 = defaultStats now
  ∧ (∀ now', loadStats now' (clearStats now storage).2 = defaultStats now')
  ∧ items (clearStats now storage).2 !! STATS_KEY
    = (if available storage then None else items storage !! STATS_KEY)
  ∧ (∀ key, key ≠ STATS_KEY →
       items (clearStats now storage).2 !! key = items storage !! key)
  ∧ available (clearStats now storage).2 = available storage
  ∧ (∀ now', (clearStats now' (clearStats now storage).2).2 = (clearStats now storage).2).
Proof.
  unfold clearStats, removeItem. simpl.
  destruct storage as [its [|]]; simpl.
  - split; [done|]. split.
    { intros now'. unfold loadStats, getItem. simpl. by rewrite lookup_delete_eq. }
    split; [apply lookup_delete_eq|]. split.
    { intros key Hkey. by rewrite lookup_delete_ne. }
    split; [done|]. intros _. f_equal. apply delete_id, lookup_delete_eq.
  - repeat split; done.
Qed.

(** ** quizStore.ts: restarting, resetting, switching the mode *)

(** X18. [restartQuiz] sets the index to 0 and clears the answer state, the
    help and the menu, but keeps the displayed word, its choices, the deck,
    the statistics, [isTransitioning] and the pending timeouts; doing it
    twice is doing it once. The next advance therefore shows the deck's word
    at position 1 (position 0 for a deck of one word), whatever word was
    displayed at the restart: the deck's first word is shown again only
    after a full round. *)
Theorem restartQuiz_then_advance rc store :
  let restarted := restartQuiz store in
  let deck := shuffled (get store) in
  index (get restarted) = 0
  ∧ display restarted = display store
  ∧ shuffled (get restarted) = deck
  ∧ stats (get restarted) = stats (get store)
  ∧ isTransitioning (get restarted) = isTransitioning (get store)
  ∧ pendingTimeouts restarted = pendingTimeouts store
  ∧ hasAnswered (get restarted) = false
  ∧ restartQuiz restarted = restarted
  ∧ displayWord (get (advanceToNextQuestion rc restarted))
    = deck !! (if (length deck <=? 1)%nat then 0%nat else 1%nat)
  ∧ (∀ rcs, length rcs = length deck → deck ≠ [] →
       displayWord (get (advanceAll rcs restarted)) = deck !! 0%nat).
Proof.
  intros restarted deck. subst restarted.
  repeat (split; [done|]). split.
  - change (advanceToNextQuestion rc (restartQuiz store))
      with (advanceAll [rc] (restartQuiz store)).
    rewrite advanceAll_displayWord by done.
    change (shuffled (get (restartQuiz store))) with deck.
    change (index (get (restartQuiz store))) with 0.
    clearbody deck. destruct deck as [|v [|v' deck]]; [done..|].
    rewrite Z.mod_small by (simpl; lia). done.
  - intros rcs Hlen Hdeck.
    rewrite advanceAll_displayWord; [|done|].
    + change (shuffled (get (restartQuiz store))) with deck.
      change (index (get (restartQuiz store))) with 0.
      rewrite Hlen, Z.add_0_l. clearbody deck. destruct deck as [|v deck]; [done|].
      rewrite Z.mod_same by (simpl; lia). done.
    + intros ->. clearbody deck. by destruct deck.
Qed.

(** X19. After [resetStats] no word is failed and no word is attempted, so
    a session of the failed words started next, by [setDifficulty] or by
    [initializeQuiz], has an empty deck for every vocabulary: no word is
    displayed, there are no choices, and advancing displays none either.
    [resetStats] itself keeps the deck and the display. *)
Theorem resetStats_empties_failed_session now rs rc vocab store :
  let reset := resetStats now store in
  getFailedWordIds (stats (get reset)) = []
  ∧ getTotalUniqueWordsAttempted (stats (get reset)) = 0
  ∧ display reset = display store
  ∧ shuffled (get reset) = shuffled (get store)
  ∧ (∀ session,
       session = setDifficulty rs rc "failed" vocab reset
       ∨ session = initializeQuiz rs rc vocab (Some "failed") reset →
       shuffled (get session) = []
       ∧ displayWord (get session) = None
       ∧ displayChoices (get session) = []
       ∧ ∀ rcs, displayWord (get (advanceAll rcs session)) = None).
Proof.
  intros reset. subst reset. repeat (split; [done|]).
  assert (∀ session, shuffled (get session) = [] → displayWord (get session) = None →
            ∀ rcs, displayWord (get (advanceAll rcs session)) = None) as Hadvance.
  { intros session Hdeck Hword rcs.
    destruct rcs as [|rc' rcs _] using rev_ind; [done|].
    rewrite advanceAll_snoc. simpl.
    destruct (advanceAll_frame rcs session) as (_ & -> & _). rewrite Hdeck.
    apply at_index_nil. }
  assert (filterVocab vocab (Some "failed") (Some []) = []) as Hnone.
  { apply List_filter_none. intros x _. apply bool_decide_eq_false_2, not_elem_of_nil. }
  intros session [-> | ->].
  - assert (shuffled (get (setDifficulty rs rc "failed" vocab (resetStats now store))) = [])
      as Hdeck.
    { unfold setDifficulty. simpl.
      change (getFailedWordIds (zeroStats now)) with (@nil string).
      by rewrite Hnone. }
    assert (displayWord (get (setDifficulty rs rc "failed" vocab (resetStats now store)))
            = None
            ∧ displayChoices (get (setDifficulty rs rc "failed" vocab (resetStats now store)))
              = []) as [Hword Hchoices].
    { unfold setDifficulty. simpl.
      change (getFailedWordIds (zeroStats now)) with (@nil string).
      by rewrite Hnone. }
    split; [done|]. split; [done|]. split; [done|]. by apply Hadvance.
  - assert (shuffled (get (initializeQuiz rs rc vocab (Some "failed") (resetStats now store)))
            = []) as Hdeck.
    { unfold initializeQuiz. simpl.
      change (getFailedWordIds (zeroStats now)) with (@nil string).
      by rewrite Hnone. }
    assert (displayWord (get (initializeQuiz rs rc vocab (Some "failed")
                                (resetStats now store))) = None
            ∧ displayChoices (get (initializeQuiz rs rc vocab (Some "failed")
                                     (resetStats now store))) = []) as [Hword Hchoices].
    { unfold initializeQuiz. simpl.
      change (getFailedWordIds (zeroStats now)) with (@nil string).
      by rewrite Hnone. }
    split; [done|]. split; [done|]. split; [done|]. by apply Hadvance.
Qed.

(** X20. What an event can write. Only [handleAnswer], [submitTextAnswer]
    and [resetStats] change the statistics or the counters, and only the
    first two schedule a callback; only [initializeQuiz] and
    [setDifficulty] change the deck or the difficulty; only [setMode]
    changes the mode. No action takes a pending callback away, and one
    action adds at most one. A callback that runs changes none of the
    statistics, the deck, the difficulty and the mode. *)
Theorem dispatch_frame a store :
  (changesStats a = false →
     stats (get (dispatch a store)) = stats (get store)
     ∧ correct (get (dispatch a store)) = correct (get store)
     ∧ attempts (get (dispatch a store)) = attempts (get store))
  ∧ (changesStats a = false ∨ isResetStats a = true →
     pendingTimeouts (dispatch a store) = pendingTimeouts store)
  ∧ (changesDeck a = false →
     shuffled (get (dispatch a store)) = shuffled (get store)
     ∧ difficulty (get (dispatch a store)) = difficulty (get store))
  ∧ (isSetMode a = false → mode (get (dispatch a store)) = mode (get store))
  ∧ (pendingTimeouts store ≤ pendingTimeouts (dispatch a store)
     ≤ S (pendingTimeouts store))%nat
  ∧ (∀ rc store',
       fireTimeout rc store = Some store' →
       stats (get store') = stats (get store)
       ∧ correct (get store') = correct (get store)
       ∧ attempts (get store') = attempts (get store)
       ∧ shuffled (get store') = shuffled (get store)
       ∧ difficulty (get store') = difficulty (get store)
       ∧ mode (get store') = mode (get store)
       ∧ S (pendingTimeouts store') = pendingTimeouts store).
Proof.
  split; [|split; [|split; [|split; [|split]]]].
  - intros Ha. destruct a; simpl in *; try done.
    unfold setMode. by destruct (displayWord (get store)).
  - intros [Ha | Ha]; destruct a; simpl in *; try done.
    unfold setMode. by destruct (displayWord (get store)).
  - intros Ha. destruct a; simpl in *; try done.
    + unfold setMode. by destruct (displayWord (get store)).
    + unfold submitTextAnswer. by destruct (JS.falsy _ || hasAnswered (get store)).
  - intros Ha. destruct a; simpl in *; try done.
    unfold submitTextAnswer. by destruct (JS.falsy _ || hasAnswered (get store)).
  - destruct a; simpl; try lia.
    + unfold setMode. destruct (displayWord (get store)); simpl; lia.
    + unfold submitTextAnswer.
      destruct (JS.falsy _ || hasAnswered (get store)); simpl; lia.
  - intros rc store'. unfold fireTimeout.
    destruct (pendingTimeouts store) as [|n]; [done|]. by intros [= <-].
Qed.

(** X21. [setMode] sets the mode and keeps the displayed word, the index,
    the deck, the answer state, the statistics and the pending timeouts.
    When a word is displayed, the choices are drawn again for that word:
    exactly one is marked correct, it carries the word's term in the new
    target language, and there is one choice more than the lesser of 3 and
    the number of deck items with another id. Without a displayed word the
    choices stay. Of two mode switches in a row only the second one shows,
    up to the draws. *)
Theorem setMode_spec rc newMode store :
  let store' := setMode rc newMode store in
  mode (get store') = newMode
  ∧ displayWord (get store') = displayWord (get store)
  ∧ index (get store') = index (get store)
  ∧ shuffled (get store') = shuffled (get store)
  ∧ hasAnswered (get store') = hasAnswered (get store)
  ∧ lastResult (get store') = lastResult (get store)
  ∧ userInput (get store') = userInput (get store)
  ∧ stats (get store') = stats (get store)
  ∧ pendingTimeouts store' = pendingTimeouts store
  ∧ (∀ w, displayWord (get store) = Some w →
       displayChoices (get store') = getChoices rc (shuffled (get store)) w newMode
       ∧ List.filter Choice.isCorrect (displayChoices (get store'))
         = [Choice.mk (target newMode w) true]
       ∧ length (displayChoices (get store'))
         = S (Nat.min 3 (length (List.filter (isOther w) (shuffled (get store))))))
  ∧ (displayWord (get store) = None →
     displayChoices (get store') = displayChoices (get store))
  ∧ (∀ rc' mode', setMode rc newMode (setMode rc' mode' store) = setMode rc newMode store).
Proof.
  intros store'. subst store'. unfold setMode.
  destruct (displayWord (get store)) as [w|] eqn:Hw; simpl; rewrite ?Hw.
  - repeat (split; [done|]). split; [|split; [done|]].
    + intros w' [= <-]. split; [done|].
      split; [apply getChoices_correct | apply getChoices_length].
    + intros rc' mode'. simpl. by rewrite ?Hw.
  - repeat split; try done.
Qed.

(** ** quizStore.ts and App.tsx: typed answers *)

Lemma isWhiteSpace_lowerUnit c : JS.isWhiteSpace (JS.lowerUnit c) = JS.isWhiteSpace c.
Proof. destruct c as [[] [] [] [] [] [] [] []]; reflexivity. Qed.

Lemma startsWithWhiteSpace_toLowerCase s :
  startsWithWhiteSpace (JS.toLowerCase s) = startsWithWhiteSpace s.
Proof. destruct s as [|c s]; [done|]. apply isWhiteSpace_lowerUnit. Qed.

Lemma endsWithWhiteSpace_toLowerCase s :
  endsWithWhiteSpace (JS.toLowerCase s) = endsWithWhiteSpace s.
Proof.
  induction s as [|c s IH]; [done|].
  destruct s as [|d s]; [apply isWhiteSpace_lowerUnit | exact IH].
Qed.

Lemma toLowerCase_empty s : JS.toLowerCase s = "" → s = "".
Proof. by destruct s. Qed.

(** A term that is empty or has white space at its start or its end is
    matched by no input that passes the guard of [submitTextAnswer]. *)
Lemma untrimmed_term_no_match input term :
  term = "" ∨ startsWithWhiteSpace term = true ∨ endsWithWhiteSpace term = true →
  JS.falsy (JS.trim input) = false →
  JS.toLowerCase (JS.trim input) ≠ JS.toLowerCase term.
Proof.
  intros Hterm Hinput Heq.
  destruct (trim_trimmedTo input) as (_ & _ & _ & _ & _ & Hstart & Hend).
  destruct Hterm as [-> | [Hs | He]].
  - apply toLowerCase_empty in Heq. by rewrite Heq in Hinput.
  - rewrite <- startsWithWhiteSpace_toLowerCase, <- Heq,
      startsWithWhiteSpace_toLowerCase in Hs. congruence.
  - rewrite <- endsWithWhiteSpace_toLowerCase, <- Heq,
      endsWithWhiteSpace_toLowerCase in He. congruence.
Qed.

(** X22. Only the input is trimmed, the term is not: for a term that is
    empty or that starts or ends with white space, [submitTextAnswer]
    never counts an answer as correct. Whatever the input, the count of
    correct answers stays, and an input that passes the guard (question
    open, input not blank) is recorded as wrong. *)
Theorem submitTextAnswer_untrimmed_term now nowSession correctAnswer currentWord store :
  correctAnswer = ""
  ∨ startsWithWhiteSpace correctAnswer = true
  ∨ endsWithWhiteSpace correctAnswer = true →
  let store' := submitTextAnswer now nowSession correctAnswer currentWord store in
  correct (get store') = correct (get store)
  ∧ (hasAnswered (get store) = false →
     allWhiteSpace (userInput (get store)) = false →
     lastResult (get store') = Some false
     ∧ attempts (get store') = attempts (get store) + 1).
Proof.
  intros Hterm store'. subst store'. unfold submitTextAnswer.
  destruct (JS.falsy (JS.trim (userInput (get store)))) eqn:Hfalsy.
  - split; [done|]. intros _ Hblank. by rewrite falsy_trim, Hblank in Hfalsy.
  - rewrite bool_decide_eq_false_2 by (by apply untrimmed_term_no_match).
    destruct (hasAnswered (get store)); simpl.
    + split; [done|]. done.
    + split; [lia|]. done.
Qed.

Lemma submitTextAnswer_untrimmed_term_witness :
  lastResult
    (get (submitTextAnswer "2024-01-01T00:00:01.000Z" "2024-01-01T00:00:01.001Z"
            "Hello " hallo (setUserInput "Hello " freshStore)))
  = Some false.
Proof.
  apply (submitTextAnswer_untrimmed_term "2024-01-01T00:00:01.000Z"
           "2024-01-01T00:00:01.001Z" "Hello " hallo (setUserInput "Hello " freshStore)).
  - right. right. reflexivity.
  - reflexivity.
  - reflexivity.
Defined.

(** X23. The two ways to answer agree on the choice marked correct. Let the
    display be consistent, the options be shown and the question be open.
    A click on a choice records the choice's mark as the verdict for the
    displayed word. Typing the text of the choice marked correct and
    submitting the form records the same verdict, with the same statistics
    and counters as the click, provided the text is not blank and has no
    white space at its start or its end. *)
Theorem typing_agrees_with_click now nowSession i choice w store :
  displayConsistent (get store) →
  displayWord (get store) = Some w →
  displayChoices (get store) !! i = Some choice →
  showHelp (get store) = true →
  hasAnswered (get store) = false →
  let clicked := clickChoice now nowSession i store in
  let typed :=
    handleTextSubmit now nowSession (setUserInput (Choice.text choice) store) in
  clicked = handleAnswer now nowSession (Choice.isCorrect choice) w store
  ∧ lastResult (get clicked) = Some (Choice.isCorrect choice)
  ∧ (Choice.isCorrect choice = true →
     Choice.text choice ≠ "" →
     startsWithWhiteSpace (Choice.text choice) = false →
     endsWithWhiteSpace (Choice.text choice) = false →
     Choice.text choice = target (mode (get store)) w
     ∧ lastResult (get typed) = Some true
     ∧ stats (get typed) = stats (get clicked)
     ∧ correct (get typed) = correct (get clicked)
     ∧ attempts (get typed) = attempts (get clicked)
     ∧ display typed = display clicked).
Proof.
  intros Hdisplay Hw Hchoice Hhelp Hopen clicked typed.
  unfold displayConsistent in Hdisplay. rewrite Hw in Hdisplay.
  destruct Hdisplay as (Hin & Hcorrect & _).
  assert (clicked = handleAnswer now nowSession (Choice.isCorrect choice) w store)
    as Hclicked.
  { subst clicked. unfold clickChoice. rewrite Hw, Hchoice, Hhelp, Hopen.
    rewrite bool_decide_eq_false_2; [done|].
    intros Hnil. rewrite Hnil in Hin. by apply elem_of_nil in Hin. }
  split; [done|]. split; [by rewrite Hclicked|].
  intros Hmark Hne Hstart Hend.
  assert (choice = Choice.mk (target (mode (get store)) w) true) as Hc.
  { assert (choice ∈ List.filter Choice.isCorrect (displayChoices (get store))) as Hel.
    { apply elem_of_List_filter. split; [by eapply list_elem_of_lookup_2 | done]. }
    rewrite Hcorrect in Hel. by apply list_elem_of_singleton in Hel. }
  assert (Choice.text choice = target (mode (get store)) w) as Htext by (by rewrite Hc).
  split; [done|].
  assert (JS.trim (Choice.text choice) = Choice.text choice) as Htrim.
  { symmetry. apply trimmedTo_trim. exists "", "". by rewrite append_empty_l, append_empty_r. }
  assert (typed = handleAnswer now nowSession true w
                    (setUserInput (Choice.text choice) store)) as Htyped.
  { subst typed. unfold handleTextSubmit. simpl. rewrite Hw.
    assert (JS.falsy (Choice.text choice) = false) as Hfalsy
      by (by destruct (Choice.text choice)).
    unfold submitTextAnswer. simpl. rewrite Htrim, Hopen, Hfalsy. simpl.
    rewrite bool_decide_eq_true_2; [done|]. by rewrite Htext. }
  rewrite Htyped, Hclicked, Hmark. done.
Qed.

Lemma typing_agrees_with_click_witness :
  ∃ i choice,
    displayChoices (get (toggleShowHelp twoWordStore)) !! i = Some choice
    ∧ clickChoice "2024-01-01T00:00:01.000Z" "2024-01-01T00:00:01.001Z" i
        (toggleShowHelp twoWordStore)
      = handleAnswer "2024-01-01T00:00:01.000Z" "2024-01-01T00:00:01.001Z"
          (Choice.isCorrect choice) hallo (toggleShowHelp twoWordStore).
Proof.
  exists 0%nat, (Choice.mk "Hello" true). split; [reflexivity|].
  apply (typing_agrees_with_click "2024-01-01T00:00:01.000Z" "2024-01-01T00:00:01.001Z"
           0%nat (Choice.mk "Hello" true) hallo (toggleShowHelp twoWordStore)).
  - vm_compute. split; [left | split; [reflexivity | lia]].
  - reflexivity.
  - reflexivity.
  - reflexivity.
  - reflexivity.
Defined.
